(** * rdd2: control laws of the cascaded multirotor controller

    Shallow embedding of [app/rdd2/src/casadi/rdd2.py].  The CasADi
    expressions are read as functions over the real numbers: an [SX]
    scalar is an [R], a column vector handed to [saturate] is a
    [list R], the fixed-size inputs of the named functions are records
    of reals.  The rotation-group library ([cyecca.lie]) is an interface
    ([RotationLib]); the control laws are written against it. *)

From Stdlib Require Import Reals Lra Lia RNsatz.
From stdpp Require Import base option list strings gmap.

Open Scope R_scope.

(** ** The symbolic substrate, read over the reals *)

Module Casadi.

#[global] Instance Rgt_decision (a b : R) : Decision (a > b) := Rgt_dec a b.
#[global] Instance Rlt_decision (a b : R) : Decision (a < b) := Rlt_dec a b.

(** [a > b] and [a < b] as CasADi builds them: a 0/1 valued expression,
    here a [bool]. *)
Definition sx_gt (a b : R) : bool := bool_decide (a > b).
Definition sx_lt (a b : R) : bool := bool_decide (a < b).

(** [ca.if_else(c, a, b)]: the value of [a] where [c] holds, of [b]
    elsewhere; both are expressions of the graph, only one is selected. *)
Definition if_else {A : Type} (c : bool) (a b : A) : A :=
  if c then a else b.

(** A 3x1 column: [ca.vertcat(a, b, c)], [ca.SX.sym(name, 3)]. *)
Record Vec3 : Type := vertcat { el0 : R; el1 : R; el2 : R }.

(** A 4x1 column, the parameter vector of a quaternion. *)
Record Quat : Type := vertcat4 { q0 : R; q1 : R; q2 : R; q3 : R }.

(** A 3x3 matrix given by its columns: [ca.horzcat(c0, c1, c2)]. *)
Record Mat3 : Type := horzcat { col0 : Vec3; col1 : Vec3; col2 : Vec3 }.

Definition to_list (v : Vec3) : list R := [el0 v; el1 v; el2 v].

Definition of_list (l : list R) : option Vec3 :=
  match l with
  | [a; b; c] => Some (vertcat a b c)
  | _ => None
  end.

Definition vadd (a b : Vec3) : Vec3 :=
  vertcat (el0 a + el0 b) (el1 a + el1 b) (el2 a + el2 b).
Definition vsub (a b : Vec3) : Vec3 :=
  vertcat (el0 a - el0 b) (el1 a - el1 b) (el2 a - el2 b).
Definition vneg (a : Vec3) : Vec3 :=
  vertcat (- el0 a) (- el1 a) (- el2 a).
(** [a * b] on two columns is elementwise. *)
Definition vmul (a b : Vec3) : Vec3 :=
  vertcat (el0 a * el0 b) (el1 a * el1 b) (el2 a * el2 b).
(** [k * v], [v * k] and [v / k] with a scalar [k]. *)
Definition smul (k : R) (v : Vec3) : Vec3 :=
  vertcat (k * el0 v) (k * el1 v) (k * el2 v).
Definition vmuls (v : Vec3) (k : R) : Vec3 :=
  vertcat (el0 v * k) (el1 v * k) (el2 v * k).
Definition vdiv (v : Vec3) (k : R) : Vec3 :=
  vertcat (el0 v / k) (el1 v / k) (el2 v / k).

Definition norm_2 (v : Vec3) : R :=
  sqrt (el0 v * el0 v + el1 v * el1 v + el2 v * el2 v).

Definition cross (a b : Vec3) : Vec3 :=
  vertcat (el1 a * el2 b - el2 a * el1 b)
          (el2 a * el0 b - el0 a * el2 b)
          (el0 a * el1 b - el1 a * el0 b).

(** [M @ v]. *)
Definition matvec (M : Mat3) (v : Vec3) : Vec3 :=
  vertcat
    (el0 (col0 M) * el0 v + el0 (col1 M) * el1 v + el0 (col2 M) * el2 v)
    (el1 (col0 M) * el0 v + el1 (col1 M) * el1 v + el1 (col2 M) * el2 v)
    (el2 (col0 M) * el0 v + el2 (col1 M) * el1 v + el2 (col2 M) * el2 v).

End Casadi.

Import Casadi.

(** ** Parameters (module-level constants of rdd2.py) *)

Definition thrust_delta : R := 0.1.
Definition thrust_trim : R := 0.5.
Definition deg2rad : R := PI / 180.
Definition g : R := 9.8.
Definition m : R := 2.0.

Definition kp_pos : R := 0.2.
Definition kp_vel : R := 1.

Definition kp_rollpitch : R := 2.
Definition kp_yaw : R := 2.
Definition yaw_rate_max : R := 60.
Definition rollpitch_max : R := 20.

Definition rollpitch_rate_max : R := 60.
Definition kp_rollpitch_rate : R := 0.015.
Definition ki_rollpitch_rate : R := 0.05.
Definition kp_yaw_rate : R := 0.1.
Definition ki_yaw_rate : R := 0.02.

Definition pos_sp_dist_max : R := 2.
Definition vel_max : R := 2.0.

Definition rollpitch_rate_integral_max : R := 1.0.
Definition yaw_rate_integral_max : R := 1.0.

(** ** saturate *)

(** The clamp written on line 49, for one component. *)
Definition clamp (xi lo hi : R) : R :=
  if_else (sx_gt xi hi) hi (if_else (sx_lt xi lo) lo xi).

(** One pass of the loop body [y[i] = ...].  [y] and [x] are the same
    object ([y = x] binds a second name, it does not copy), so the read
    of [x[i]] is a read of the vector being written.  An index outside
    [x_max] or [x_min] raises: [None]. *)
Definition saturate_body (x_min x_max : list R) (y : list R) (i : nat)
  : option (list R) :=
  xi ← y !! i;
  hi ← x_max !! i;
  lo ← x_min !! i;
  Some (<[i := clamp xi lo hi]> y).

(** [for i in range(x.shape[0])]: the body threaded through the indices. *)
Fixpoint saturate_loop (x_min x_max : list R) (idx : list nat) (y : list R)
  : option (list R) :=
  match idx with
  | [] => Some y
  | i :: rest =>
      y' ← saturate_body x_min x_max y i;
      saturate_loop x_min x_max rest y'
  end.

Definition saturate (x x_min x_max : list R) : option (list R) :=
  saturate_loop x_min x_max (seq 0 (length x)) x.

(** ** The rotation-group library

    [cyecca.lie] is consumed as a capability: the laws below use these
    seven operations of [SO3Quat] and [SO3EulerB321] and nothing else of
    it.  An Euler element is its parameter column (yaw, pitch, roll). *)

Class RotationLib : Type := {
  SO3Quat_to_Matrix : Quat -> Mat3;
  SO3Quat_from_Matrix : Mat3 -> Quat;
  SO3Quat_from_Euler : Vec3 -> Quat;
  SO3EulerB321_from_Quat : Quat -> Vec3;
  SO3Quat_inverse : Quat -> Quat;
  SO3Quat_product : Quat -> Quat -> Quat;
  SO3Quat_log : Quat -> Vec3
}.

Section Laws.

Context {L : RotationLib}.

(** ** Manual-input mappers *)

Definition joy_acro (joy_roll joy_pitch joy_yaw joy_thrust : R) : Vec3 * R :=
  let w := vertcat
    (- rollpitch_rate_max * deg2rad * joy_roll)
    (rollpitch_rate_max * deg2rad * joy_pitch)
    (yaw_rate_max * deg2rad * joy_yaw) in
  let thrust := joy_thrust * thrust_delta + thrust_trim in
  (w, thrust).

Definition joy_auto_level (joy_roll joy_pitch joy_yaw joy_thrust : R)
  (q : Quat) : Quat * R :=
  let euler := SO3EulerB321_from_Quat q in
  let yaw := el0 euler in
  let pitch := el1 euler in
  let roll := el2 euler in
  let euler_r := vertcat
    (yaw + yaw_rate_max * deg2rad * joy_yaw)
    (rollpitch_max * deg2rad * joy_pitch)
    (- rollpitch_max * deg2rad * joy_roll) in
  let q_r := SO3Quat_from_Euler euler_r in
  let thrust := joy_thrust * thrust_delta + thrust_trim in
  (q_r, thrust).

(** The world-frame velocity of lines 165-171, as the source computes
    it.  [f_joy_position] does not list it among its outputs. *)
Definition joy_position_velocity (joy_roll joy_pitch joy_thrust yaw : R)
  : Vec3 :=
  let vbx := vel_max * joy_pitch in
  let vby := vel_max * joy_roll in
  let vwx := vbx * cos yaw - vby * sin yaw in
  let vwy := vbx * sin yaw + vby * cos yaw in
  let vwz := joy_thrust in
  vertcat vwx vwy vwz.

(** [f_joy_position]: inputs (joy_roll, joy_pitch, joy_yaw, joy_thrust,
    q), outputs (q_r, thrust).  [p] and [p_r] are symbols of the
    derivation that the function does not take; [yaw_rate], the
    velocities and [norm_e] are computed and dropped. *)
Definition joy_position (joy_roll joy_pitch joy_yaw joy_thrust : R)
  (q : Quat) : Quat * R :=
  let euler := SO3EulerB321_from_Quat q in
  let yaw := el0 euler in
  let pitch := el1 euler in
  let roll := el2 euler in
  let yaw_rate := 60 * deg2rad * joy_yaw in
  let vw := joy_position_velocity joy_roll joy_pitch joy_thrust yaw in
  let euler_r := vertcat
    (yaw + yaw_rate_max * joy_yaw)
    (rollpitch_max * joy_pitch)
    (- rollpitch_max * joy_roll) in
  let q_r := SO3Quat_from_Euler euler_r in
  let thrust := joy_thrust * thrust_delta + thrust_trim in
  (q_r, thrust).

(** ** Euler/quaternion conversions *)

Definition quat_to_eulerB321 (q_wb : Quat) : R * R * R :=
  let e := SO3EulerB321_from_Quat q_wb in
  (el0 e, el1 e, el2 e).

Definition eulerB321_to_quat (yaw pitch roll : R) : Quat :=
  let e := vertcat yaw pitch roll in
  SO3Quat_from_Euler e.

(** ** Attitude control *)

Definition attitude_control (q q_r : Quat) : Vec3 :=
  let kp := vertcat kp_rollpitch kp_rollpitch kp_yaw in
  let e := SO3Quat_log (SO3Quat_product (SO3Quat_inverse q) q_r) in
  let omega := vmul kp e in
  omega.

(** ** Attitude-rate control *)

(** Outputs (M, omega_i_update).  [saturate] works on the column as a
    vector of any length; the result is [None] should it raise. *)
Definition attitude_rate_control (omega omega_r omega_i : Vec3) (dt : R)
  : option (Vec3 * Vec3) :=
  let kp := vertcat kp_rollpitch_rate kp_rollpitch_rate kp_yaw_rate in
  let omega_e := vsub omega_r omega in
  let ki := vertcat ki_rollpitch_rate ki_rollpitch_rate ki_yaw_rate in
  let omega_i_2 := vadd omega_i (vmuls omega_e dt) in
  let integral_max := vertcat rollpitch_rate_integral_max
    rollpitch_rate_integral_max yaw_rate_integral_max in
  y ← saturate (to_list omega_i_2) (to_list (vneg integral_max))
        (to_list integral_max);
  omega_i_2 ← of_list y;
  let M := vadd (vmul kp omega_e) (vmul ki omega_i_2) in
  Some (M, omega_i_2).

(** ** Position control *)

Definition xW : Vec3 := vertcat 1 0 0.
Definition yW : Vec3 := vertcat 0 1 0.
Definition zW : Vec3 := vertcat 0 0 1.

Definition p_norm_max : R := 0.3.

(** Line 370: the candidate thrust term. *)
Definition p_term_raw (e_p e_v at_w : Vec3) : Vec3 :=
  vadd (vsub (vdiv (smul (- kp_pos) e_p) (2 * g))
             (vdiv (smul kp_vel e_v) (2 * g)))
       (vdiv at_w (2 * g)).

(** Lines 371-372: the magnitude clamp. *)
Definition p_term_clamp (p_term : Vec3) : Vec3 :=
  let p_norm := norm_2 p_term in
  if_else (sx_gt p_norm p_norm_max)
          (vdiv (smul p_norm_max p_term) p_norm) p_term.

(** Line 375. *)
Definition T0 : Vec3 := vdiv zW 2.

(** Lines 380-383: body up from the thrust vector. *)
Definition zB_of (T : Vec3) : Vec3 :=
  let nT := norm_2 T in
  if_else (sx_gt nT 1e-3) (vdiv T nT) zW.

(** Lines 388-391: body y from body up and the camera yaw [yt]. *)
Definition yB_of (zB : Vec3) (yt : R) : Vec3 :=
  let xC := vertcat (cos yt) (sin yt) 0 in
  let yB := cross zB xC in
  let nyB := norm_2 yB in
  if_else (sx_gt nyB 1e-3) (vdiv yB nyB) xW.

(** The desired attitude matrix [Rd_wb] of line 397. *)
Definition Rd_wb_of (T : Vec3) (yt : R) : Mat3 :=
  let zB := zB_of T in
  let yB := yB_of zB yt in
  let xB := cross yB zB in
  horzcat xB yB zB.

(** Outputs (nT, qr_wb). *)
Definition position_control (pt_w vt_w at_w : Vec3) (qc_wb : Quat)
  (p_w v_b : Vec3) (q_wb : Quat) : R * Quat :=
  let R_wb := SO3Quat_to_Matrix q_wb in
  let v_w := matvec R_wb v_b in
  let e_p := vsub p_w pt_w in
  let e_v := vsub v_w vt_w in
  let p_term := p_term_clamp (p_term_raw e_p e_v at_w) in
  let T := vadd p_term T0 in
  let nT := norm_2 T in
  let ec := SO3EulerB321_from_Quat qc_wb in
  let yt := el0 ec in
  let Rd_wb := Rd_wb_of T yt in
  let qr_wb := SO3Quat_from_Matrix Rd_wb in
  (nT, qr_wb).

End Laws.

(** ** Function registry and code-generation driver *)

(** What [ca.Function(name, inputs, outputs, input_names, output_names)]
    records of a law: its name and its signature. *)
Record NamedFunction : Type := Function {
  fn_name : string;
  fn_inputs : list string;
  fn_outputs : list string
}.

Definition f_joy_acro : NamedFunction :=
  Function "joy_acro"
    ["joy_roll"; "joy_pitch"; "joy_yaw"; "joy_thrust"] ["omega"; "thrust"].
Definition f_joy_auto_level : NamedFunction :=
  Function "joy_auto_level"
    ["joy_roll"; "joy_pitch"; "joy_yaw"; "joy_thrust"; "q"] ["q_r"; "thrust"].
Definition f_joy_position : NamedFunction :=
  Function "joy_position"
    ["joy_roll"; "joy_pitch"; "joy_yaw"; "joy_thrust"; "q"] ["q_r"; "thrust"].
Definition f_quat_to_eulerB321 : NamedFunction :=
  Function "quat_to_eulerB321" ["q_wb"] ["yaw"; "pitch"; "roll"].
Definition f_eulerB321_to_quat : NamedFunction :=
  Function "eulerB321_to_quat" ["yaw"; "pitch"; "roll"] ["q"].
Definition f_attitude_control : NamedFunction :=
  Function "attitude_control" ["q"; "q_r"] ["omega"].
Definition f_attitude_rate_control : NamedFunction :=
  Function "attitude_rate_control"
    ["omega"; "omega_r"; "omega_i"; "dt"] ["M"; "omega_i_update"].
Definition f_get_u : NamedFunction :=
  Function "position_control"
    ["pt_w"; "vt_w"; "at_w"; "qc_wb"; "p_w"; "v_b"; "q_wb"] ["nT"; "qr_wb"].

(** The dictionaries the [derive_*] functions return. *)
Definition derive_joy_acro : gmap string NamedFunction :=
  {[ "joy_acro" := f_joy_acro ]}.
Definition derive_joy_auto_level : gmap string NamedFunction :=
  {[ "joy_auto_level" := f_joy_auto_level ]}.
Definition derive_joy_position : gmap string NamedFunction :=
  {[ "joy_position" := f_joy_position ]}.
Definition derive_quat_to_eulerB321 : gmap string NamedFunction :=
  {[ "quat_to_eulerB321" := f_quat_to_eulerB321 ]}.
Definition derive_eulerB321_to_quat : gmap string NamedFunction :=
  {[ "eulerB321_to_quat" := f_eulerB321_to_quat ]}.
Definition derive_attitude_control : gmap string NamedFunction :=
  {[ "attitude_control" := f_attitude_control ]}.
Definition derive_attitude_rate_control : gmap string NamedFunction :=
  {[ "attitude_rate_control" := f_attitude_rate_control ]}.
Definition derive_position_control : gmap string NamedFunction :=
  {[ "position_control" := f_get_u ]}.

(** [eqs.update(d)]: every key of [d] is bound to [d]'s value, the other
    keys of [eqs] stay.  A statement of the script either completes
    ([Some]) or raises ([None]); this one has no raising path. *)
Definition dict_update (eqs d : gmap string NamedFunction)
  : option (gmap string NamedFunction) :=
  Some (d ∪ eqs).

(** Lines 449-457. *)
Definition main_eqs : option (gmap string NamedFunction) :=
  eqs ← Some ∅;
  eqs ← dict_update eqs derive_attitude_rate_control;
  eqs ← dict_update eqs derive_attitude_control;
  eqs ← dict_update eqs derive_position_control;
  eqs ← dict_update eqs derive_eulerB321_to_quat;
  eqs ← dict_update eqs derive_quat_to_eulerB321;
  eqs ← dict_update eqs derive_joy_acro;
  eqs ← dict_update eqs derive_joy_auto_level;
  dict_update eqs derive_joy_position.

(** The external generator, as far as the driver touches it: the file
    name, the options, and the functions handed over by [gen.add]. *)
Record CodeGenerator : Type := mkGen {
  gen_filename : string;
  gen_options : gmap string bool;
  gen_added : list NamedFunction
}.

Definition gen_add (gen : CodeGenerator) (eq : NamedFunction) : CodeGenerator :=
  mkGen (gen_filename gen) (gen_options gen) (gen_added gen ++ [eq]).

Definition default_options : gmap string bool :=
  list_to_map [
    ("verbose", true); ("mex", false); ("cpp", false); ("main", false);
    ("with_header", true); ("with_mem", false); ("with_export", false);
    ("with_import", false); ("include_math", true); ("avoid_stack", true)].

(** [for k, v in kwargs.items(): assert k in p.keys(); p[k] = v]. *)
Fixpoint apply_kwargs (p : gmap string bool) (kwargs : list (string * bool))
  : option (gmap string bool) :=
  match kwargs with
  | [] => Some p
  | (k, v) :: rest =>
      if decide (is_Some (p !! k)) then apply_kwargs (<[k := v]> p) rest
      else None
  end.

(** [generate_code] from the options to the [gen.add] loop: the
    generator as the loop leaves it, [None] when the assertion on the
    keyword arguments fails.  The calls that reach outside the script
    are not in it: [Path.mkdir] (line 425), what the constructor
    [ca.CodeGenerator] checks of its file name (line 442), and
    [gen.generate] (line 445); a result [Some gen] is the state those
    calls find, not their success.  The functions are added in the
    enumeration order of the map, not in the insertion order of the
    Python dictionary. *)
Definition generate_code (eqs : gmap string NamedFunction) (filename : string)
  (kwargs : list (string * bool)) : option CodeGenerator :=
  p ← apply_kwargs default_options kwargs;
  let gen := mkGen filename p [] in
  Some (foldl (fun gen '(name, eq) => gen_add gen eq) gen (map_to_list eqs)).

(** Lines 449-462. *)
Definition main : option CodeGenerator :=
  eqs ← main_eqs;
  generate_code eqs "rdd2.c" [].

(** ** A model of the rotation-group library *)

Module SO3.

(** Modelled from the spec: the two-argument arctangent that the Euler
    extraction of the rotation-group library needs is not part of the
    sources; this is the principal value in (-PI, PI]. *)
Definition atan2 (y x : R) : R :=
  if decide (x > 0) then atan (y / x)
  else if decide (x < 0) then
    (if decide (y < 0) then atan (y / x) - PI else atan (y / x) + PI)
  else if decide (y > 0) then PI / 2
  else if decide (y < 0) then - (PI / 2)
  else 0.

(** Modelled from the spec: [compose] of the rotation-group library is
    not part of the sources; the Hamilton product of two quaternions
    (scalar part first). *)
Definition product (q p : Quat) : Quat :=
  vertcat4
    (q0 q * q0 p - q1 q * q1 p - q2 q * q2 p - q3 q * q3 p)
    (q1 q * q0 p + q0 q * q1 p - q3 q * q2 p + q2 q * q3 p)
    (q2 q * q0 p + q3 q * q1 p + q0 q * q2 p - q1 q * q3 p)
    (q3 q * q0 p - q2 q * q1 p + q1 q * q2 p + q0 q * q3 p).

(** Modelled from the spec: [invert] of the rotation-group library is not
    part of the sources; the inverse of a unit quaternion is its
    conjugate. *)
Definition inverse (q : Quat) : Quat :=
  vertcat4 (q0 q) (- q1 q) (- q2 q) (- q3 q).

(** Modelled from the spec: [log] of the rotation-group library is not
    part of the sources; the inverse of the exponential: the angular
    displacement (angle times axis) of a unit quaternion. *)
Definition log (q : Quat) : Vec3 :=
  let theta := 2 * acos (q0 q) in
  let c := sin (theta / 2) in
  vertcat (theta * q1 q / c) (theta * q2 q / c) (theta * q3 q / c).

(** Modelled from the spec: [toRotationMatrix] of the rotation-group
    library is not part of the sources; the rotation matrix of a unit
    quaternion, column by column. *)
Definition to_Matrix (q : Quat) : Mat3 :=
  let a := q0 q in let b := q1 q in let c := q2 q in let d := q3 q in
  horzcat
    (vertcat (1 - 2 * (c * c + d * d)) (2 * (b * c + a * d)) (2 * (b * d - a * c)))
    (vertcat (2 * (b * c - a * d)) (1 - 2 * (b * b + d * d)) (2 * (c * d + a * b)))
    (vertcat (2 * (b * d + a * c)) (2 * (c * d - a * b)) (1 - 2 * (b * b + c * c))).

(** Modelled from the spec: [fromRotationMatrix] of the rotation-group
    library is not part of the sources; the quaternion of a rotation
    matrix, dividing by the largest of the four candidates' pivots. *)
Definition from_Matrix (M : Mat3) : Quat :=
  let r00 := el0 (col0 M) in let r01 := el0 (col1 M) in let r02 := el0 (col2 M) in
  let r10 := el1 (col0 M) in let r11 := el1 (col1 M) in let r12 := el1 (col2 M) in
  let r20 := el2 (col0 M) in let r21 := el2 (col1 M) in let r22 := el2 (col2 M) in
  let b1 := sqrt (1 + r00 + r11 + r22) / 2 in
  let b2 := sqrt (1 + r00 - r11 - r22) / 2 in
  let b3 := sqrt (1 - r00 + r11 - r22) / 2 in
  let b4 := sqrt (1 - r00 - r11 + r22) / 2 in
  if_else (sx_gt (r00 + r11 + r22) 0)
    (vertcat4 b1 ((r21 - r12) / (4 * b1)) ((r02 - r20) / (4 * b1))
              ((r10 - r01) / (4 * b1)))
    (if_else (sx_gt r00 r11 && sx_gt r00 r22)
      (vertcat4 ((r21 - r12) / (4 * b2)) b2 ((r01 + r10) / (4 * b2))
                ((r02 + r20) / (4 * b2)))
      (if_else (sx_gt r11 r22)
        (vertcat4 ((r02 - r20) / (4 * b3)) ((r01 + r10) / (4 * b3)) b3
                  ((r12 + r21) / (4 * b3)))
        (vertcat4 ((r10 - r01) / (4 * b4)) ((r02 + r20) / (4 * b4))
                  ((r12 + r21) / (4 * b4)) b4))).

(** Modelled from the spec: [fromEuler321] of the rotation-group library
    is not part of the sources; the quaternion of the body-321 sequence:
    yaw about z, then pitch about the new y, then roll about the new x. *)
Definition from_Euler (e : Vec3) : Quat :=
  let cy := cos (el0 e / 2) in let sy := sin (el0 e / 2) in
  let cp := cos (el1 e / 2) in let sp := sin (el1 e / 2) in
  let cr := cos (el2 e / 2) in let sr := sin (el2 e / 2) in
  vertcat4
    (cy * cp * cr + sy * sp * sr)
    (cy * cp * sr - sy * sp * cr)
    (cy * sp * cr + sy * cp * sr)
    (sy * cp * cr - cy * sp * sr).

(** Modelled from the spec: [toEuler321] of the rotation-group library is
    not part of the sources; yaw, pitch and roll of the body-321
    sequence read off a unit quaternion, as away from the singularity
    at pitch = +-90 degrees. *)
Definition from_Quat (q : Quat) : Vec3 :=
  let a := q0 q in let b := q1 q in let c := q2 q in let d := q3 q in
  vertcat
    (atan2 (2 * (a * d + b * c)) (1 - 2 * (c * c + d * d)))
    (asin (2 * (a * c - b * d)))
    (atan2 (2 * (a * b + c * d)) (1 - 2 * (b * b + c * c))).

(** Modelled from the spec: near the singularity at pitch = +-90
    degrees the library leaves the regular extraction for a fallback
    (the conversions are inverses only away from it).  Neither the test
    nor the fallback is part of the sources or described, so both are
    arguments: [locked q] tells whether the fallback is taken at [q],
    [lock q] is what it returns there. *)
Definition from_Quat_gated (locked : Quat -> bool) (lock : Quat -> Vec3)
  (q : Quat) : Vec3 :=
  if_else (locked q) (lock q) (from_Quat q).

(** Modelled from the spec: one shape such a test can take, a band of
    half-width [band] around +-PI/2 on the extracted pitch. *)
Definition band_gate (band : R) (q : Quat) : bool :=
  sx_lt (Rabs (Rabs (asin (2 * (q0 q * q2 q - q1 q * q3 q))) - PI / 2)) band.

(** Modelled from the spec: the rotation-group library as one value of
    the interface the laws are written against, the extraction of the
    Euler angles being the regular one. *)
Definition model : RotationLib := {|
  SO3Quat_to_Matrix := to_Matrix;
  SO3Quat_from_Matrix := from_Matrix;
  SO3Quat_from_Euler := from_Euler;
  SO3EulerB321_from_Quat := from_Quat;
  SO3Quat_inverse := inverse;
  SO3Quat_product := product;
  SO3Quat_log := log
|}.

(** Modelled from the spec: the same library with the extraction of the
    Euler angles gated by [locked] and [lock]. *)
Definition model_gated (locked : Quat -> bool) (lock : Quat -> Vec3)
  : RotationLib := {|
  SO3Quat_to_Matrix := to_Matrix;
  SO3Quat_from_Matrix := from_Matrix;
  SO3Quat_from_Euler := from_Euler;
  SO3EulerB321_from_Quat := from_Quat_gated locked lock;
  SO3Quat_inverse := inverse;
  SO3Quat_product := product;
  SO3Quat_log := log
|}.

End SO3.

(** ** Notions the statements use *)

(** A unit quaternion. *)
Definition unit_quat (q : Quat) : Prop :=
  q0 q * q0 q + q1 q * q1 q + q2 q * q2 q + q3 q * q3 q = 1.

(** Every component of [v] within the symmetric bound [b]. *)
Definition within (b v : Vec3) : Prop :=
  - el0 b <= el0 v <= el0 b /\
  - el1 b <= el1 v <= el1 b /\
  - el2 b <= el2 v <= el2 b.

(** The bound of the rate loop's integral, (roll, pitch, yaw). *)
Definition integral_bound : Vec3 := vertcat 1.0 1.0 1.0.

(** The caller's loop around the rate law: one call per tick, each tick
    with its measurement, setpoint and [dt], the returned integral state
    fed to the next call. *)
Fixpoint rate_loop (ticks : list (Vec3 * Vec3 * R)) (omega_i : Vec3)
  : option Vec3 :=
  match ticks with
  | [] => Some omega_i
  | (omega, omega_r, dt) :: rest =>
      r ← attitude_rate_control omega omega_r omega_i dt;
      rate_loop rest r.2
  end.

(** The scalar product of two columns. *)
Definition dot (a b : Vec3) : R :=
  el0 a * el0 b + el1 a * el1 b + el2 a * el2 b.

(** A stick axis within its nominal travel. *)
Definition stick (j : R) : Prop := -1 <= j <= 1.

(** The rotation matrix of the body-321 angles (yaw, pitch, roll),
    by columns: Rz(yaw) Ry(pitch) Rx(roll). *)
Definition eulerB321_matrix (yaw pitch roll : R) : Mat3 :=
  let cy := cos yaw in let sy := sin yaw in
  let cp := cos pitch in let sp := sin pitch in
  let cr := cos roll in let sr := sin roll in
  horzcat
    (vertcat (cy * cp) (sy * cp) (- sp))
    (vertcat (cy * sp * sr - sy * cr) (sy * sp * sr + cy * cr) (cp * sr))
    (vertcat (cy * sp * cr + sy * sr) (sy * sp * cr - cy * sr) (cp * cr)).

(** Registration as the specification words it: a name that is already
    registered makes the step fail. *)
Definition register_strict (eqs d : gmap string NamedFunction)
  : option (gmap string NamedFunction) :=
  if decide (dom d ∩ dom eqs = ∅) then Some (d ∪ eqs) else None.

(** * Properties *)

(** ** Comparisons and the componentwise clamp *)

Lemma sx_gt_true a b : a > b -> sx_gt a b = true.
Proof. intros H. unfold sx_gt. by rewrite bool_decide_eq_true. Qed.

Lemma sx_gt_false a b : a <= b -> sx_gt a b = false.
Proof. intros H. unfold sx_gt. rewrite bool_decide_eq_false. lra. Qed.

Lemma sx_lt_true a b : a < b -> sx_lt a b = true.
Proof. intros H. unfold sx_lt. by rewrite bool_decide_eq_true. Qed.

Lemma sx_lt_false a b : b <= a -> sx_lt a b = false.
Proof. intros H. unfold sx_lt. rewrite bool_decide_eq_false. lra. Qed.

(** The three cases of [clamp], by the order in which line 49 tests. *)
Lemma clamp_cases xi lo hi :
  (xi > hi /\ clamp xi lo hi = hi) \/
  (xi <= hi /\ xi < lo /\ clamp xi lo hi = lo) \/
  (lo <= xi <= hi /\ clamp xi lo hi = xi).
Proof.
  unfold clamp, if_else.
  destruct (Rgt_dec xi hi) as [Hh|Hh].
  - left. by rewrite sx_gt_true.
  - rewrite sx_gt_false by lra.
    destruct (Rlt_dec xi lo) as [Hl|Hl].
    + right; left. rewrite sx_lt_true by done. lra.
    + right; right. rewrite sx_lt_false by lra. lra.
Qed.

Lemma clamp_range xi lo hi : lo <= hi -> lo <= clamp xi lo hi <= hi.
Proof. intros H. destruct (clamp_cases xi lo hi) as [?|[?|?]]; lra. Qed.

Lemma clamp_id xi lo hi : lo <= xi <= hi -> clamp xi lo hi = xi.
Proof. intros H. destruct (clamp_cases xi lo hi) as [?|[?|?]]; lra. Qed.

(** ** The loop of [saturate] *)

(** The loop over the indices [k, k+n) of a vector long enough, with
    bounds long enough: it returns, keeps the length, leaves the
    components outside the range alone and clamps those inside. *)
Lemma saturate_loop_spec (x_min x_max : list R) (n : nat) :
  forall (k : nat) (y : list R),
    (k + n <= length y)%nat ->
    (k + n <= length x_min)%nat ->
    (k + n <= length x_max)%nat ->
    exists y' : list R,
      saturate_loop x_min x_max (seq k n) y = Some y' /\
      length y' = length y /\
      (forall i, (i < k \/ k + n <= i)%nat -> y' !! i = y !! i) /\
      (forall i xi lo hi, (k <= i < k + n)%nat ->
         y !! i = Some xi -> x_min !! i = Some lo -> x_max !! i = Some hi ->
         y' !! i = Some (clamp xi lo hi)).
Proof.
  induction n as [|n IH]; intros k y Hy Hlo Hhi.
  - exists y. simpl. repeat split; auto. intros; lia.
  - destruct (lookup_lt_is_Some_2 y k) as [xk Hxk]; [lia|].
    destruct (lookup_lt_is_Some_2 x_min k) as [lk Hlk]; [lia|].
    destruct (lookup_lt_is_Some_2 x_max k) as [hk Hhk]; [lia|].
    set (y1 := <[k := clamp xk lk hk]> y).
    destruct (IH (S k) y1) as (y' & Hrun & Hlen & Hout & Hin).
    { unfold y1. rewrite length_insert. lia. }
    { lia. }
    { lia. }
    exists y'. split; [|split; [|split]].
    + simpl. unfold saturate_body. rewrite Hxk, Hhk, Hlk. simpl. exact Hrun.
    + rewrite Hlen. unfold y1. by rewrite length_insert.
    + intros i Hi. rewrite Hout by lia.
      unfold y1. apply list_lookup_insert_ne. lia.
    + intros i xi lo hi Hi Hxi Hli Hhi'.
      destruct (decide (i = k)) as [->|Hne].
      * rewrite Hout by lia. unfold y1.
        rewrite list_lookup_insert_eq by lia.
        congruence.
      * apply Hin; try done; [lia|].
        unfold y1. rewrite list_lookup_insert_ne by done. done.
Qed.

(** [saturate] on bounds at least as long as the vector: it returns the
    vector of the componentwise clamps. *)
Lemma saturate_spec (x x_min x_max : list R) :
  (length x <= length x_min)%nat ->
  (length x <= length x_max)%nat ->
  exists y : list R,
    saturate x x_min x_max = Some y /\
    length y = length x /\
    (forall i xi lo hi,
       x !! i = Some xi -> x_min !! i = Some lo -> x_max !! i = Some hi ->
       y !! i = Some (clamp xi lo hi)).
Proof.
  intros Hlo Hhi.
  destruct (saturate_loop_spec x_min x_max (length x) 0 x)
    as (y & Hrun & Hlen & _ & Hin); try (simpl; lia).
  exists y. split; [exact Hrun|]. split; [exact Hlen|].
  intros i xi lo hi Hxi Hli Hhi'. apply (Hin i xi lo hi); try done.
  apply lookup_lt_Some in Hxi. lia.
Qed.

(** On three components the loop unrolls. *)
Lemma saturate_three a b c l0 l1 l2 h0 h1 h2 :
  saturate [a; b; c] [l0; l1; l2] [h0; h1; h2] =
  Some [clamp a l0 h0; clamp b l1 h1; clamp c l2 h2].
Proof. reflexivity. Qed.

(** C5.  With bounds at least as long as the vector and
    [lower[i] <= upper[i]] at every index, [saturate] returns a vector of
    the length of [x] whose every component lies in
    [[lower[i], upper[i]]] and is [x[i]] where that was in the interval
    already. *)
Theorem saturate_in_range (x lower upper : list R) :
  (length x <= length lower)%nat ->
  (length x <= length upper)%nat ->
  (forall i lo hi, lower !! i = Some lo -> upper !! i = Some hi -> lo <= hi) ->
  exists y : list R,
    saturate x lower upper = Some y /\
    length y = length x /\
    (forall i xi lo hi,
       x !! i = Some xi -> lower !! i = Some lo -> upper !! i = Some hi ->
       exists yi, y !! i = Some yi /\
         lo <= yi <= hi /\ (lo <= xi <= hi -> yi = xi)).
Proof.
  intros Hlo Hhi Hord.
  destruct (saturate_spec x lower upper Hlo Hhi) as (y & Hrun & Hlen & Hy).
  exists y. split; [done|]. split; [done|].
  intros i xi lo hi Hxi Hli Hhi'.
  exists (clamp xi lo hi). split; [by apply Hy|].
  split.
  - apply clamp_range. by apply (Hord i).
  - apply clamp_id.
Qed.

Lemma saturate_in_range_witness :
  exists y : list R,
    saturate [2; 0; -3] [-1; -1; -1] [1; 1; 1] = Some y /\
    length y = length [2; 0; -3] /\
    (forall i xi lo hi,
       [2; 0; -3] !! i = Some xi -> [-1; -1; -1] !! i = Some lo ->
       [1; 1; 1] !! i = Some hi ->
       exists yi, y !! i = Some yi /\
         lo <= yi <= hi /\ (lo <= xi <= hi -> yi = xi)).
Proof.
  apply (saturate_in_range [2; 0; -3] [-1; -1; -1] [1; 1; 1]).
  - simpl. lia.
  - simpl. lia.
  - intros i lo hi Hl Hh.
    destruct i as [|[|[|i]]]; simpl in Hl, Hh; simplify_eq; lra.
Defined.

(** C4, as stated, fails: with [lower = 1 > upper = 0] and [x = 2] the
    first test [x > upper] succeeds and the component is [upper], not
    [lower]. *)
Lemma saturate_violated_bounds_not_lower :
  exists y : list R,
    1 > 0 /\
    saturate [2] [1] [0] = Some y /\
    y !! 0%nat = Some 0 /\
    y !! 0%nat <> Some 1.
Proof.
  exists [clamp 2 1 0]. split; [lra|]. split; [reflexivity|].
  assert (Hc : clamp 2 1 0 = 0).
  { destruct (clamp_cases 2 1 0) as [?|[?|?]]; lra. }
  simpl. rewrite Hc. split; [done|]. intros [=]. lra.
Qed.

(** C4, amended.  With [lower[i] > upper[i]] at an index inside the
    vector and the bounds, [saturate] still returns, and the component is
    [upper[i]] when [x[i] > upper[i]] and [lower[i]] otherwise; it is
    never [x[i]] itself unless that is one of the two bounds. *)
Theorem saturate_violated_bounds (x lower upper : list R)
  (i : nat) (xi lo hi : R) :
  (length x <= length lower)%nat ->
  (length x <= length upper)%nat ->
  x !! i = Some xi -> lower !! i = Some lo -> upper !! i = Some hi ->
  lo > hi ->
  exists y : list R,
    saturate x lower upper = Some y /\
    (xi > hi -> y !! i = Some hi) /\
    (xi <= hi -> y !! i = Some lo).
Proof.
  intros Hlo Hhi Hxi Hli Hhi' Hviol.
  destruct (saturate_spec x lower upper Hlo Hhi) as (y & Hrun & Hlen & Hy).
  exists y. split; [done|].
  rewrite (Hy i xi lo hi Hxi Hli Hhi').
  destruct (clamp_cases xi lo hi) as [[? ->]|[(? & ? & ->)|[? ?]]];
    split; intros; try done; try lra; f_equal; lra.
Qed.

Lemma saturate_violated_bounds_witness :
  exists y : list R,
    saturate [2; -5] [1; 1] [0; 0] = Some y /\
    (-5 > 0 -> y !! 1%nat = Some 0) /\
    (-5 <= 0 -> y !! 1%nat = Some 1).
Proof.
  apply (saturate_violated_bounds [2; -5] [1; 1] [0; 0] 1 (-5) 1 0).
  - simpl. lia.
  - simpl. lia.
  - reflexivity.
  - reflexivity.
  - reflexivity.
  - lra.
Defined.

(** ** The rate law *)

(** The rate law in closed form: it always returns, the integral is the
    componentwise clamp of the accumulated error to [-1, 1], and the
    moment is formed from that clamped integral. *)
Lemma attitude_rate_control_eq (omega omega_r omega_i : Vec3) (dt : R) :
  let e := vsub omega_r omega in
  let omega_i' := vertcat
    (clamp (el0 omega_i + el0 e * dt) (- (1.0)) 1.0)
    (clamp (el1 omega_i + el1 e * dt) (- (1.0)) 1.0)
    (clamp (el2 omega_i + el2 e * dt) (- (1.0)) 1.0) in
  attitude_rate_control omega omega_r omega_i dt =
  Some (vadd (vmul (vertcat kp_rollpitch_rate kp_rollpitch_rate kp_yaw_rate) e)
             (vmul (vertcat ki_rollpitch_rate ki_rollpitch_rate ki_yaw_rate)
                   omega_i'),
        omega_i').
Proof. reflexivity. Qed.

Lemma clamped_within (a b c : R) :
  within integral_bound
    (vertcat (clamp a (- (1.0)) 1.0) (clamp b (- (1.0)) 1.0)
             (clamp c (- (1.0)) 1.0)).
Proof.
  unfold within, integral_bound; simpl.
  pose proof (clamp_range a (- (1.0)) 1.0).
  pose proof (clamp_range b (- (1.0)) 1.0).
  pose proof (clamp_range c (- (1.0)) 1.0).
  lra.
Qed.

(** One tick of the caller's loop. *)
Lemma rate_loop_cons (omega omega_r : Vec3) (dt : R)
  (rest : list (Vec3 * Vec3 * R)) (omega_i : Vec3) :
  let e := vsub omega_r omega in
  rate_loop ((omega, omega_r, dt) :: rest) omega_i =
  rate_loop rest (vertcat
    (clamp (el0 omega_i + el0 e * dt) (- (1.0)) 1.0)
    (clamp (el1 omega_i + el1 e * dt) (- (1.0)) 1.0)
    (clamp (el2 omega_i + el2 e * dt) (- (1.0)) 1.0)).
Proof. reflexivity. Qed.

(** Whatever the ticks bring, after at least one of them the integral
    state is within the bound. *)
Lemma rate_loop_within (ticks : list (Vec3 * Vec3 * R)) :
  forall (tick : Vec3 * Vec3 * R) (omega_i : Vec3),
    exists r : Vec3,
      rate_loop (tick :: ticks) omega_i = Some r /\ within integral_bound r.
Proof.
  induction ticks as [|t ticks IH]; intros [[omega omega_r] dt] omega_i;
    rewrite rate_loop_cons.
  - eexists; split; [reflexivity|]. apply clamped_within.
  - apply IH.
Qed.

(** C1.  For every input the rate law returns; the returned integral
    state is [saturate(omega_i + e*dt, -bound, bound)] with
    [e = omega_r - omega] and [bound = (1, 1, 1)]; the moment is
    [Kp .* e + Ki .* omega_i'] on that saturated integral; every
    component of the returned state is within the bound; and so is the
    state after any positive number of updates at the same measurement,
    setpoint and [dt]. *)
Theorem attitude_rate_control_anti_windup
  (omega omega_r omega_i : Vec3) (dt : R) :
  let e := vsub omega_r omega in
  let Kp := vertcat kp_rollpitch_rate kp_rollpitch_rate kp_yaw_rate in
  let Ki := vertcat ki_rollpitch_rate ki_rollpitch_rate ki_yaw_rate in
  exists M omega_i' : Vec3,
    attitude_rate_control omega omega_r omega_i dt = Some (M, omega_i') /\
    saturate (to_list (vadd omega_i (vmuls e dt)))
             (to_list (vneg integral_bound)) (to_list integral_bound)
      = Some (to_list omega_i') /\
    M = vadd (vmul Kp e) (vmul Ki omega_i') /\
    within integral_bound omega_i' /\
    forall n : nat, exists r : Vec3,
      rate_loop (replicate (S n) (omega, omega_r, dt)) omega_i = Some r /\
      within integral_bound r.
Proof.
  intros e Kp Ki.
  rewrite attitude_rate_control_eq. fold e.
  eexists; eexists. split; [reflexivity|].
  split; [reflexivity|]. split; [reflexivity|].
  split; [apply clamped_within|].
  intros n. apply rate_loop_within.
Qed.

(** ** The 2-norm *)

Lemma norm_2_nonneg (v : Vec3) : 0 <= norm_2 v.
Proof. apply sqrt_pos. Qed.

Lemma norm_2_sqr (v : Vec3) :
  norm_2 v * norm_2 v = el0 v * el0 v + el1 v * el1 v + el2 v * el2 v.
Proof. unfold norm_2. apply sqrt_sqrt. nra. Qed.

(** A vector whose squared length lies between two squares has its
    length between their roots. *)
Lemma norm_2_between (v : Vec3) (a b : R) :
  0 <= a -> 0 <= b ->
  a * a <= el0 v * el0 v + el1 v * el1 v + el2 v * el2 v <= b * b ->
  a <= norm_2 v <= b.
Proof.
  intros Ha Hb [Hlo Hhi].
  pose proof (norm_2_nonneg v) as Hn. pose proof (norm_2_sqr v) as Hs.
  split; nra.
Qed.

Lemma vec3_eq (a b c a' b' c' : R) :
  a = a' -> b = b' -> c = c' -> vertcat a b c = vertcat a' b' c'.
Proof. by intros -> -> ->. Qed.

(** ** The thrust clamp *)

(** The clamp rescales by one factor in (0, 1]. *)
Lemma p_term_clamp_scale (p : Vec3) :
  exists c : R, 0 < c <= 1 /\ p_term_clamp p = smul c p.
Proof.
  unfold p_term_clamp, if_else, p_norm_max.
  destruct (Rgt_dec (norm_2 p) 0.3) as [Hgt|Hle].
  - rewrite sx_gt_true by done.
    exists (0.3 / norm_2 p). split.
    + split.
      * apply Rdiv_lt_0_compat; lra.
      * apply (Rmult_le_reg_r (norm_2 p)); [lra|].
        unfold Rdiv. rewrite Rmult_assoc, Rinv_l by lra. lra.
    + unfold vdiv, smul; simpl. apply vec3_eq; field; lra.
  - rewrite sx_gt_false by lra.
    exists 1. split; [lra|].
    destruct p. unfold smul; simpl. apply vec3_eq; lra.
Qed.

(** After the clamp the 2-norm is at most the cap. *)
Lemma p_term_clamp_norm (p : Vec3) : norm_2 (p_term_clamp p) <= 0.3.
Proof.
  unfold p_term_clamp, if_else, p_norm_max.
  destruct (Rgt_dec (norm_2 p) 0.3) as [Hgt|Hle].
  - rewrite sx_gt_true by done.
    pose proof (norm_2_sqr p) as Hs.
    apply (norm_2_between _ 0 0.3); [lra|lra|].
    unfold vdiv, smul; simpl. split; [nra|].
    apply Req_le.
    transitivity
      (0.3 * 0.3 * (el0 p * el0 p + el1 p * el1 p + el2 p * el2 p)
       / (norm_2 p * norm_2 p)).
    + field. lra.
    + rewrite <- Hs. field. lra.
  - rewrite sx_gt_false by lra. lra.
Qed.

(** Adding the trim to a term no longer than the cap. *)
Lemma trim_norm_bounds (p : Vec3) :
  norm_2 p <= 0.3 -> 0.2 <= norm_2 (vadd p T0) <= 0.8.
Proof.
  intros Hp.
  pose proof (norm_2_nonneg p) as Hn. pose proof (norm_2_sqr p) as Hs.
  apply norm_2_between; [lra|lra|].
  unfold vadd, T0, vdiv, zW; simpl.
  assert (Hc : - norm_2 p <= el2 p <= norm_2 p) by (split; nra).
  split; nra.
Qed.

(** C7.  For every input of the position law: the clamped thrust term is
    the candidate term times one factor in (0, 1] (same direction), its
    2-norm is at most 0.3, the thrust output is the 2-norm of the clamped
    term plus the trim vector (0, 0, 1/2), and it lies in [0.2, 0.8]. *)
Theorem position_control_thrust_bounded `{L : RotationLib}
  (pt_w vt_w at_w : Vec3) (qc_wb : Quat) (p_w v_b : Vec3) (q_wb : Quat) :
  let v_w := matvec (SO3Quat_to_Matrix q_wb) v_b in
  let p_term := p_term_raw (vsub p_w pt_w) (vsub v_w vt_w) at_w in
  let clamped := p_term_clamp p_term in
  let nT := (position_control pt_w vt_w at_w qc_wb p_w v_b q_wb).1 in
  (exists c : R, 0 < c <= 1 /\ clamped = smul c p_term) /\
  norm_2 clamped <= 0.3 /\
  nT = norm_2 (vadd clamped (vertcat 0 0 (1 / 2))) /\
  0.2 <= nT <= 0.8.
Proof.
  intros v_w p_term clamped nT.
  split; [apply p_term_clamp_scale|].
  split; [apply p_term_clamp_norm|].
  assert (HnT : nT = norm_2 (vadd clamped T0)) by reflexivity.
  split.
  - rewrite HnT. f_equal. unfold vadd, T0, vdiv, zW; simpl.
    apply vec3_eq; lra.
  - rewrite HnT. apply trim_norm_bounds, p_term_clamp_norm.
Qed.

(** C6.  Whenever the thrust vector [T] has 2-norm at most 1e-3, the
    body-up axis selected on line 383 is world-up (0, 0, 1), not
    [T/nT]. *)
Theorem zB_fallback_world_up (T : Vec3) :
  norm_2 T <= 1e-3 -> zB_of T = vertcat 0 0 1.
Proof.
  intros H. unfold zB_of, if_else. by rewrite sx_gt_false.
Qed.

Lemma zB_fallback_world_up_witness :
  zB_of (vertcat 0 0 0) = vertcat 0 0 1.
Proof.
  apply (zB_fallback_world_up (vertcat 0 0 0)).
  unfold norm_2; simpl.
  replace (0 * 0 + 0 * 0 + 0 * 0) with 0 by lra.
  rewrite sqrt_0. lra.
Defined.

(** Over the reals the thrust vector of the position law is never that
    short: the clamp keeps it at least 0.2 long, so line 383 selects
    [T/nT] on every input. *)
Lemma zB_of_thrust_regular (p_term : Vec3) :
  let T := vadd (p_term_clamp p_term) T0 in
  zB_of T = vdiv T (norm_2 T).
Proof.
  intros T. unfold zB_of, if_else.
  pose proof (trim_norm_bounds _ (p_term_clamp_norm p_term)) as [Hlo _].
  fold T in Hlo. by rewrite sx_gt_true by lra.
Qed.

(** ** The hover case of the position law *)

Lemma sqrt_quarter : sqrt (0 * 0 + 0 * 0 + 1 / 2 * (1 / 2)) = 1 / 2.
Proof.
  replace (0 * 0 + 0 * 0 + 1 / 2 * (1 / 2)) with (1 / 2 * (1 / 2)) by lra.
  apply sqrt_square. lra.
Qed.

(** Zero errors and zero feed-forward give a zero thrust term, which the
    clamp leaves alone. *)
Lemma p_term_hover (x v : Vec3) :
  p_term_clamp (p_term_raw (vsub x x) (vsub v v) (vertcat 0 0 0))
  = vertcat 0 0 0.
Proof.
  assert (Hraw : p_term_raw (vsub x x) (vsub v v) (vertcat 0 0 0)
                 = vertcat 0 0 0).
  { unfold p_term_raw, vadd, vsub, vdiv, smul, kp_pos, kp_vel, g; simpl.
    apply vec3_eq; lra. }
  rewrite Hraw. unfold p_term_clamp, if_else, p_norm_max.
  rewrite sx_gt_false; [done|].
  unfold norm_2; simpl.
  replace (0 * 0 + 0 * 0 + 0 * 0) with 0 by lra. rewrite sqrt_0. lra.
Qed.

(** With the trim alone as thrust vector the desired attitude is the
    rotation by [yt] about world-up. *)
Lemma Rd_wb_trim (yt : R) :
  Rd_wb_of (vertcat 0 0 (1 / 2)) yt = eulerB321_matrix yt 0 0.
Proof.
  assert (HzB : zB_of (vertcat 0 0 (1 / 2)) = vertcat 0 0 1).
  { unfold zB_of, if_else, norm_2; simpl. rewrite sqrt_quarter.
    rewrite sx_gt_true by lra.
    unfold vdiv; simpl. apply vec3_eq; lra. }
  assert (HyB : yB_of (vertcat 0 0 1) yt = vertcat (- sin yt) (cos yt) 0).
  { unfold yB_of, if_else, cross; simpl.
    assert (Hn : norm_2 (vertcat (0 * 0 - 1 * sin yt) (1 * cos yt - 0 * 0)
                                 (0 * sin yt - 0 * cos yt)) = 1).
    { unfold norm_2; simpl.
      replace ((0 * 0 - 1 * sin yt) * (0 * 0 - 1 * sin yt)
               + (1 * cos yt - 0 * 0) * (1 * cos yt - 0 * 0)
               + (0 * sin yt - 0 * cos yt) * (0 * sin yt - 0 * cos yt))
        with ((sin yt)² + (cos yt)²) by (unfold Rsqr; ring).
      rewrite sin2_cos2. apply sqrt_1. }
    rewrite Hn. rewrite sx_gt_true by lra.
    unfold vdiv; simpl. apply vec3_eq; lra. }
  unfold Rd_wb_of, eulerB321_matrix. rewrite HzB, HyB.
  rewrite cos_0, sin_0. unfold cross; simpl.
  f_equal; apply vec3_eq; ring.
Qed.

(** C2.  Hover: the position equals its setpoint, the body velocity
    rotated to the world frame equals the velocity setpoint, and the
    acceleration setpoint is zero.  Then the thrust output is the trim
    value 0.5, and the desired quaternion is the library's quaternion of
    the rotation with body-321 angles (yaw, 0, 0): zero pitch, zero
    roll, and for yaw the yaw of the camera orientation. *)
Theorem position_control_hover `{L : RotationLib}
  (pt_w vt_w at_w : Vec3) (qc_wb : Quat) (p_w v_b : Vec3) (q_wb : Quat) :
  p_w = pt_w ->
  matvec (SO3Quat_to_Matrix q_wb) v_b = vt_w ->
  at_w = vertcat 0 0 0 ->
  let yaw_c := el0 (SO3EulerB321_from_Quat qc_wb) in
  position_control pt_w vt_w at_w qc_wb p_w v_b q_wb =
  (thrust_trim, SO3Quat_from_Matrix (eulerB321_matrix yaw_c 0 0)).
Proof.
  intros -> Hv -> yaw_c.
  unfold position_control. rewrite Hv, p_term_hover.
  assert (HT : vadd (vertcat 0 0 0) T0 = vertcat 0 0 (1 / 2)).
  { unfold vadd, T0, vdiv, zW; simpl. apply vec3_eq; lra. }
  rewrite HT, Rd_wb_trim. f_equal.
  unfold norm_2, thrust_trim; simpl. rewrite sqrt_quarter. lra.
Qed.

Lemma position_control_hover_witness :
  position_control (L := SO3.model)
    (vertcat 1 2 3) (vertcat 1 0 0) (vertcat 0 0 0) (vertcat4 1 0 0 0)
    (vertcat 1 2 3) (vertcat 1 0 0) (vertcat4 1 0 0 0) =
  (thrust_trim,
   SO3.from_Matrix
     (eulerB321_matrix (el0 (SO3.from_Quat (vertcat4 1 0 0 0))) 0 0)).
Proof.
  apply (position_control_hover (L := SO3.model)).
  - reflexivity.
  - unfold matvec; simpl. apply vec3_eq; lra.
  - reflexivity.
Defined.

(** ** Zero attitude error *)

(** For any rotation library in which [inverse q * q] is an element
    whose logarithm vanishes, the attitude law at [q_r = q] commands no
    rotation. *)
Lemma attitude_control_zero_of_log `{L : RotationLib} (q : Quat) :
  SO3Quat_log (SO3Quat_product (SO3Quat_inverse q) q) = vertcat 0 0 0 ->
  attitude_control q q = vertcat 0 0 0.
Proof.
  intros H. unfold attitude_control. rewrite H.
  unfold vmul; simpl. apply vec3_eq; ring.
Qed.

Lemma product_inverse_unit (q : Quat) :
  unit_quat q -> SO3.product (SO3.inverse q) q = vertcat4 1 0 0 0.
Proof.
  unfold unit_quat, SO3.product, SO3.inverse; simpl. intros H.
  f_equal; [lra|ring|ring|ring].
Qed.

Lemma log_identity : SO3.log (vertcat4 1 0 0 0) = vertcat 0 0 0.
Proof.
  unfold SO3.log; simpl. rewrite acos_1.
  apply vec3_eq; unfold Rdiv; ring.
Qed.

(** C8.  For every unit quaternion [q], the attitude law at identical
    current and desired orientation returns the zero angular-velocity
    setpoint. *)
Theorem attitude_control_zero_error (q : Quat) :
  unit_quat q ->
  attitude_control (L := SO3.model) q q = vertcat 0 0 0.
Proof.
  intros Hq. apply (attitude_control_zero_of_log (L := SO3.model)).
  simpl. by rewrite product_inverse_unit, log_identity.
Qed.

Lemma attitude_control_zero_error_witness :
  attitude_control (L := SO3.model)
    (vertcat4 0 1 0 0) (vertcat4 0 1 0 0) = vertcat 0 0 0.
Proof.
  apply (attitude_control_zero_error (vertcat4 0 1 0 0)).
  unfold unit_quat; simpl. lra.
Defined.

(** ** Euler angles to quaternion and back *)

(** The arctangent of a ratio of a sine and a cosine with a common
    factor, inside the principal branch. *)
Lemma atan_ratio (k t : R) :
  k <> 0 -> - (PI / 2) < t < PI / 2 ->
  atan (k * sin t / (k * cos t)) = t.
Proof.
  intros Hk Ht.
  assert (Hc : 0 < cos t) by (apply cos_gt_0; lra).
  replace (k * sin t / (k * cos t)) with (tan t).
  - by apply atan_tan.
  - unfold tan. field. split; lra.
Qed.

(** The sign of the cosine locates an angle of (-PI, PI]. *)
Lemma cos_sign_cases (t : R) :
  - PI < t <= PI ->
  (- (PI / 2) < t < PI / 2 /\ 0 < cos t) \/
  (PI / 2 < t /\ cos t < 0 /\ 0 <= sin t) \/
  (t < - (PI / 2) /\ cos t < 0 /\ sin t < 0) \/
  (t = PI / 2 /\ cos t = 0 /\ sin t = 1) \/
  (t = - (PI / 2) /\ cos t = 0 /\ sin t = -1).
Proof.
  intros [Hlo Hhi]. pose proof PI_RGT_0 as Hpi.
  destruct (Rtotal_order t (PI / 2)) as [Hlt|[Heq|Hgt]].
  - destruct (Rtotal_order t (- (PI / 2))) as [Hlt'|[Heq'|Hgt']].
    + right; right; left. split; [done|]. split.
      * rewrite <- cos_neg. apply cos_lt_0; lra.
      * replace t with (- (- t)) by lra. rewrite sin_neg.
        assert (0 < sin (- t)) by (apply sin_gt_0; lra). lra.
    + right; right; right; right. subst t.
      rewrite cos_neg, sin_neg, cos_PI2, sin_PI2. lra.
    + left. split; [lra|]. apply cos_gt_0; lra.
  - right; right; right; left. subst t. rewrite cos_PI2, sin_PI2. lra.
  - right; left. split; [done|]. split.
    + apply cos_lt_0; lra.
    + apply sin_ge_0; lra.
Qed.

(** [atan2] recovers an angle of (-PI, PI] from its sine and cosine
    scaled by a positive factor. *)
Lemma atan2_sin_cos (r t : R) :
  0 < r -> - PI < t <= PI ->
  SO3.atan2 (r * sin t) (r * cos t) = t.
Proof.
  intros Hr Ht. unfold SO3.atan2.
  destruct (cos_sign_cases t Ht)
    as [[Hin Hc]|[(Hin & Hc & Hs)|[(Hin & Hc & Hs)|[(-> & Hc & Hs)|(-> & Hc & Hs)]]]].
  - rewrite decide_True by nra. apply atan_ratio; lra.
  - rewrite decide_False by nra. rewrite decide_True by nra.
    rewrite decide_False by nra.
    replace (r * sin t / (r * cos t))
      with (- r * sin (t - PI) / (- r * cos (t - PI))).
    + rewrite atan_ratio; lra.
    + replace t with ((t - PI) + PI) at 3 4 by lra.
      rewrite neg_sin, neg_cos. field.
      replace (t - PI) with (- (PI - t)) by lra. rewrite cos_neg.
      replace (PI - t) with (- t + PI) by lra. rewrite neg_cos, cos_neg.
      split; lra.
  - rewrite decide_False by nra. rewrite decide_True by nra.
    rewrite decide_True by nra.
    replace (r * sin t / (r * cos t))
      with (- r * sin (t + PI) / (- r * cos (t + PI))).
    + rewrite atan_ratio; lra.
    + rewrite neg_sin, neg_cos. field. split; lra.
  - rewrite Hc, Hs.
    rewrite decide_False by lra. rewrite decide_False by lra.
    rewrite decide_True by lra. done.
  - rewrite Hc, Hs.
    rewrite decide_False by lra. rewrite decide_False by lra.
    rewrite decide_False by lra. rewrite decide_True by lra. done.
Qed.

Lemma sin_double (t : R) : sin t = 2 * sin (t / 2) * cos (t / 2).
Proof. rewrite <- sin_2a. f_equal. lra. Qed.

Lemma cos_double (t : R) :
  cos t = cos (t / 2) * cos (t / 2) - sin (t / 2) * sin (t / 2).
Proof. rewrite <- cos_2a. f_equal. lra. Qed.

(** The five quantities the Euler extraction reads off the quaternion of
    (yaw, pitch, roll), in terms of the angles. *)
Lemma from_Euler_readout (yaw pitch roll : R) :
  let q := SO3.from_Euler (vertcat yaw pitch roll) in
  let a := q0 q in let b := q1 q in let c := q2 q in let d := q3 q in
  2 * (a * c - b * d) = sin pitch /\
  2 * (a * d + b * c) = cos pitch * sin yaw /\
  1 - 2 * (c * c + d * d) = cos pitch * cos yaw /\
  2 * (a * b + c * d) = cos pitch * sin roll /\
  1 - 2 * (b * b + c * c) = cos pitch * cos roll.
Proof.
  unfold SO3.from_Euler; simpl.
  rewrite (sin_double yaw), (cos_double yaw), (sin_double pitch),
    (cos_double pitch), (sin_double roll), (cos_double roll).
  pose proof (sin2_cos2 (yaw / 2)) as Hy.
  pose proof (sin2_cos2 (pitch / 2)) as Hp.
  pose proof (sin2_cos2 (roll / 2)) as Hr.
  unfold Rsqr in Hy, Hp, Hr.
  set (cy := cos (yaw / 2)) in *. set (sy := sin (yaw / 2)) in *.
  set (cp := cos (pitch / 2)) in *. set (sp := sin (pitch / 2)) in *.
  set (cr := cos (roll / 2)) in *. set (sr := sin (roll / 2)) in *.
  repeat split; nsatz.
Qed.

(** The model is coherent: the matrix of the quaternion of
    (yaw, pitch, roll) is the body-321 matrix of these angles. *)
Lemma to_Matrix_from_Euler (yaw pitch roll : R) :
  SO3.to_Matrix (SO3.from_Euler (vertcat yaw pitch roll))
  = eulerB321_matrix yaw pitch roll.
Proof.
  unfold SO3.to_Matrix, SO3.from_Euler, eulerB321_matrix; simpl.
  rewrite (sin_double yaw), (cos_double yaw), (sin_double pitch),
    (cos_double pitch), (sin_double roll), (cos_double roll).
  pose proof (sin2_cos2 (yaw / 2)) as Hy.
  pose proof (sin2_cos2 (pitch / 2)) as Hp.
  pose proof (sin2_cos2 (roll / 2)) as Hr.
  unfold Rsqr in Hy, Hp, Hr.
  set (cy := cos (yaw / 2)) in *. set (sy := sin (yaw / 2)) in *.
  set (cp := cos (pitch / 2)) in *. set (sp := sin (pitch / 2)) in *.
  set (cr := cos (roll / 2)) in *. set (sr := sin (roll / 2)) in *.
  f_equal; apply vec3_eq; nsatz.
Qed.

(** The library's way back undoes its way there on the principal
    ranges of the three angles. *)
Lemma from_Quat_from_Euler (yaw pitch roll : R) :
  - PI < yaw <= PI ->
  - (PI / 2) < pitch < PI / 2 ->
  - PI < roll <= PI ->
  SO3.from_Quat (SO3.from_Euler (vertcat yaw pitch roll))
  = vertcat yaw pitch roll.
Proof.
  intros Hy Hp Hr.
  destruct (from_Euler_readout yaw pitch roll) as (E1 & E2 & E3 & E4 & E5).
  assert (Hc : 0 < cos pitch) by (apply cos_gt_0; lra).
  unfold SO3.from_Quat. cbv zeta in *.
  rewrite E1, E2, E3, E4, E5.
  rewrite !atan2_sin_cos by done.
  by rewrite asin_sin by lra.
Qed.

(** Two full turns of yaw are the same quaternion as none. *)
Lemma from_Euler_4PI :
  SO3.from_Euler (vertcat (4 * PI) 0 0) = SO3.from_Euler (vertcat 0 0 0).
Proof.
  unfold SO3.from_Euler; simpl.
  replace (4 * PI / 2) with (2 * PI) by lra.
  by rewrite cos_2PI, sin_2PI, Rdiv_0_l, cos_0, sin_0.
Qed.

(** The two conversion functions over the model of the library. *)
Lemma quat_to_eulerB321_model (q : Quat) :
  quat_to_eulerB321 (L := SO3.model) q =
  (el0 (SO3.from_Quat q), el1 (SO3.from_Quat q), el2 (SO3.from_Quat q)).
Proof. reflexivity. Qed.

Lemma eulerB321_to_quat_model (yaw pitch roll : R) :
  eulerB321_to_quat (L := SO3.model) yaw pitch roll =
  SO3.from_Euler (vertcat yaw pitch roll).
Proof. reflexivity. Qed.

(** Half a turn of pitch is the quaternion (0, 0, 1, 0). *)
Lemma from_Euler_pitch_PI :
  SO3.from_Euler (vertcat 0 PI 0) = vertcat4 0 0 1 0.
Proof.
  unfold SO3.from_Euler; simpl.
  rewrite Rdiv_0_l, cos_0, sin_0, cos_PI2, sin_PI2. f_equal; ring.
Qed.

(** Two full turns of roll are the same quaternion as none. *)
Lemma from_Euler_roll_4PI :
  SO3.from_Euler (vertcat 0 0 (4 * PI)) = SO3.from_Euler (vertcat 0 0 0).
Proof.
  unfold SO3.from_Euler; simpl.
  replace (4 * PI / 2) with (2 * PI) by lra.
  by rewrite cos_2PI, sin_2PI, Rdiv_0_l, cos_0, sin_0.
Qed.

(** C9, as stated for every triple, fails, on each of the three angles
    and far from the singularity.  Yaw = 4 PI (pitch and roll zero)
    gives the quaternion of yaw = 0, and the way back returns yaw = 0,
    more than 12 away from the input.  Pitch = PI (yaw and roll zero)
    comes back as pitch = 0, more than 3 away.  Roll = 4 PI comes back
    as roll = 0. *)
Lemma euler_roundtrip_not_every_triple :
  quat_to_eulerB321 (L := SO3.model)
    (eulerB321_to_quat (L := SO3.model) (4 * PI) 0 0) = (0, 0, 0) /\
  4 * PI - 0 > 12 /\
  (quat_to_eulerB321 (L := SO3.model)
     (eulerB321_to_quat (L := SO3.model) 0 PI 0)).1.2 = 0 /\
  PI - 0 > 3 /\
  quat_to_eulerB321 (L := SO3.model)
    (eulerB321_to_quat (L := SO3.model) 0 0 (4 * PI)) = (0, 0, 0).
Proof.
  pose proof PI2_3_2 as Hpi.
  split; [|split; [lra|split; [|split; [lra|]]]].
  - rewrite eulerB321_to_quat_model, quat_to_eulerB321_model.
    rewrite from_Euler_4PI, from_Quat_from_Euler; [done|lra..].
  - rewrite eulerB321_to_quat_model, quat_to_eulerB321_model.
    rewrite from_Euler_pitch_PI. unfold SO3.from_Quat; cbn.
    replace (2 * (0 * 1 - 0 * 0)) with 0 by ring. apply asin_0.
  - rewrite eulerB321_to_quat_model, quat_to_eulerB321_model.
    rewrite from_Euler_roll_4PI, from_Quat_from_Euler; [done|lra..].
Qed.

(** Where the gate is not taken the extraction is the regular one. *)
Lemma from_Quat_gated_regular (locked : Quat -> bool) (lock : Quat -> Vec3)
  (q : Quat) :
  locked q = false -> SO3.from_Quat_gated locked lock q = SO3.from_Quat q.
Proof. intros H. unfold SO3.from_Quat_gated. by rewrite H. Qed.

(** A gate that is a band around +-PI/2 is not taken at the quaternion
    of a pitch that keeps the band's distance from +-PI/2. *)
Lemma band_gate_away (band yaw pitch roll : R) :
  0 < band -> Rabs pitch <= PI / 2 - band ->
  SO3.band_gate band (SO3.from_Euler (vertcat yaw pitch roll)) = false.
Proof.
  intros Hb Hp. unfold SO3.band_gate.
  destruct (from_Euler_readout yaw pitch roll) as (E1 & _).
  cbv zeta in E1. rewrite E1.
  assert (Hin : - (PI / 2) <= pitch <= PI / 2).
  { pose proof (Rle_abs pitch). pose proof (Rle_abs (- pitch)) as Hn.
    rewrite Rabs_Ropp in Hn. lra. }
  rewrite asin_sin by done.
  apply sx_lt_false.
  rewrite Rabs_left1 by lra. lra.
Qed.

(** C9, amended.  For yaw and roll in (-PI, PI] and pitch strictly
    between -PI/2 and PI/2, away from the singularity (the library does
    not take its fallback at the quaternion of the triple, whatever its
    test and its fallback are), converting to a quaternion and back
    reproduces (yaw, pitch, roll), exactly over the reals. *)
Theorem euler_quat_roundtrip (locked : Quat -> bool) (lock : Quat -> Vec3)
  (yaw pitch roll : R) :
  - PI < yaw <= PI ->
  - (PI / 2) < pitch < PI / 2 ->
  - PI < roll <= PI ->
  locked (eulerB321_to_quat (L := SO3.model_gated locked lock) yaw pitch roll)
    = false ->
  quat_to_eulerB321 (L := SO3.model_gated locked lock)
    (eulerB321_to_quat (L := SO3.model_gated locked lock) yaw pitch roll)
  = (yaw, pitch, roll).
Proof.
  intros Hy Hp Hr Hfree.
  unfold quat_to_eulerB321, eulerB321_to_quat in *.
  cbn [SO3EulerB321_from_Quat SO3Quat_from_Euler SO3.model_gated] in *.
  rewrite from_Quat_gated_regular by done.
  by rewrite from_Quat_from_Euler.
Qed.

Lemma euler_quat_roundtrip_witness :
  quat_to_eulerB321
    (L := SO3.model_gated (SO3.band_gate 1e-3) (fun _ => vertcat 0 0 0))
    (eulerB321_to_quat
       (L := SO3.model_gated (SO3.band_gate 1e-3) (fun _ => vertcat 0 0 0))
       1 (1 / 2) (- 1))
  = (1, 1 / 2, - 1).
Proof.
  pose proof PI2_1 as H. pose proof PI2_3_2 as H'.
  apply (euler_quat_roundtrip (SO3.band_gate 1e-3) (fun _ => vertcat 0 0 0)
           1 (1 / 2) (- 1)); [lra..|].
  apply band_gate_away; [lra|].
  rewrite Rabs_pos_eq by lra. lra.
Defined.

(** ** The hover setpoint read back by the model of the library *)

(** [atan2] returns a principal value. *)
Lemma atan2_range (y x : R) : - PI < SO3.atan2 y x <= PI.
Proof.
  pose proof PI_RGT_0 as Hpi. unfold SO3.atan2.
  pose proof (atan_bound (y / x)) as Hb.
  repeat case_decide; try lra.
  - assert (0 < y / x).
    { replace (y / x) with ((- y) / (- x)) by (field; lra).
      apply Rdiv_lt_0_compat; lra. }
    assert (0 < atan (y / x)) by (rewrite <- atan_0; by apply atan_increasing).
    lra.
  - assert (y / x <= 0).
    { replace (y / x) with (- (y / (- x))) by (field; lra).
      assert (0 <= y / (- x)); [|lra].
      apply Rle_mult_inv_pos; lra. }
    assert (atan (y / x) <= 0).
    { rewrite <- atan_0. destruct H2 as [Hlt| ->].
      - left. by apply atan_increasing.
      - right. done. }
    lra.
Qed.

(** A quaternion and its negative have the same Euler angles. *)
Lemma from_Quat_neg (q : Quat) :
  SO3.from_Quat (vertcat4 (- q0 q) (- q1 q) (- q2 q) (- q3 q)) = SO3.from_Quat q.
Proof.
  unfold SO3.from_Quat; simpl. f_equal; f_equal; ring.
Qed.

(** The body-321 matrix of a pure yaw. *)
Lemma yaw_matrix (t : R) :
  eulerB321_matrix t 0 0 =
  horzcat (vertcat (cos t) (sin t) 0) (vertcat (- sin t) (cos t) 0)
          (vertcat 0 0 1).
Proof.
  unfold eulerB321_matrix. rewrite cos_0, sin_0.
  f_equal; apply vec3_eq; ring.
Qed.

(** The quaternion the model extracts from a pure-yaw matrix reads back
    as that yaw with zero pitch and zero roll. *)
Lemma from_Matrix_yaw (t : R) :
  - PI < t <= PI ->
  SO3.from_Quat (SO3.from_Matrix (eulerB321_matrix t 0 0)) = vertcat t 0 0.
Proof.
  intros Ht. pose proof PI_RGT_0 as Hpi.
  transitivity (SO3.from_Quat (SO3.from_Euler (vertcat t 0 0)));
    [|apply from_Quat_from_Euler; lra].
  assert (HE : SO3.from_Euler (vertcat t 0 0)
               = vertcat4 (cos (t / 2)) 0 0 (sin (t / 2))).
  { unfold SO3.from_Euler; simpl. rewrite Rdiv_0_l, cos_0, sin_0.
    f_equal; ring. }
  rewrite HE, yaw_matrix.
  pose proof (sin_double t) as Hs. pose proof (cos_double t) as Hc.
  pose proof (sin2_cos2 (t / 2)) as H1. unfold Rsqr in H1.
  assert (Hch : 0 <= cos (t / 2)) by (apply cos_ge_0; lra).
  set (ch := cos (t / 2)) in *. set (sh := sin (t / 2)) in *.
  unfold SO3.from_Matrix, if_else; simpl.
  destruct (Rgt_dec (cos t + cos t + 1) 0) as [Htr|Htr].
  - rewrite sx_gt_true by done.
    assert (Hb1 : sqrt (1 + cos t + cos t + 1) / 2 = ch).
    { replace (1 + cos t + cos t + 1) with ((2 * ch) * (2 * ch)) by nra.
      rewrite sqrt_square by lra. lra. }
    rewrite Hb1. assert (0 < ch) by nra.
    f_equal. f_equal; rewrite ?Hs; field; lra.
  - rewrite sx_gt_false by lra.
    rewrite (sx_gt_false (cos t) (cos t)) by lra. simpl.
    rewrite sx_gt_false by (pose proof (COS_bound t); lra).
    assert (Hsh : sh <> 0) by nra.
    destruct (Rlt_dec 0 sh) as [Hpos|Hneg].
    + assert (Hb4 : sqrt (1 - cos t - cos t + 1) / 2 = sh).
      { replace (1 - cos t - cos t + 1) with ((2 * sh) * (2 * sh)) by nra.
        rewrite sqrt_square by lra. lra. }
      rewrite Hb4. f_equal. f_equal; rewrite ?Hs; field; lra.
    + assert (Hb4 : sqrt (1 - cos t - cos t + 1) / 2 = - sh).
      { replace (1 - cos t - cos t + 1) with ((2 * - sh) * (2 * - sh)) by nra.
        rewrite sqrt_square by lra. lra. }
      rewrite Hb4.
      rewrite <- (from_Quat_neg (vertcat4 ch 0 0 sh)). simpl.
      f_equal. f_equal; rewrite ?Hs; field; lra.
Qed.

(** The desired orientation of the hover case, read back through the
    model: yaw of the camera, zero pitch, zero roll. *)
Lemma hover_setpoint_euler (qc_wb : Quat) :
  let yaw_c := el0 (SO3.from_Quat qc_wb) in
  SO3.from_Quat (SO3.from_Matrix (eulerB321_matrix yaw_c 0 0))
  = vertcat yaw_c 0 0.
Proof. intros yaw_c. apply from_Matrix_yaw, atan2_range. Qed.

(** ** The stick mappers *)

Lemma from_Euler_zero : SO3.from_Euler (vertcat 0 0 0) = vertcat4 1 0 0 0.
Proof.
  unfold SO3.from_Euler; simpl. rewrite Rdiv_0_l, cos_0, sin_0.
  f_equal; ring.
Qed.

(** The level attitude has yaw, pitch and roll zero. *)
Lemma from_Quat_identity : SO3.from_Quat (vertcat4 1 0 0 0) = vertcat 0 0 0.
Proof.
  pose proof PI_RGT_0.
  rewrite <- from_Euler_zero. apply from_Quat_from_Euler; lra.
Qed.

(** The scalar part of the quaternion of a pure pitch. *)
Lemma from_Euler_pitch_q0 (y p r : R) :
  y = 0 -> r = 0 -> q0 (SO3.from_Euler (vertcat y p r)) = cos (p / 2).
Proof.
  intros -> ->. unfold SO3.from_Euler; simpl.
  rewrite Rdiv_0_l, cos_0, sin_0. ring.
Qed.

(** The orientation setpoint of either mapper is the library's
    quaternion of an Euler triple; the two triples differ in the factor
    [deg2rad] on every stick term. *)
Lemma joy_setpoints `{L : RotationLib}
  (joy_roll joy_pitch joy_yaw joy_thrust : R) (q : Quat) :
  let yaw := el0 (SO3EulerB321_from_Quat q) in
  (joy_auto_level joy_roll joy_pitch joy_yaw joy_thrust q).1 =
    SO3Quat_from_Euler (vertcat (yaw + 60 * deg2rad * joy_yaw)
                                (20 * deg2rad * joy_pitch)
                                (- 20 * deg2rad * joy_roll)) /\
  (joy_position joy_roll joy_pitch joy_yaw joy_thrust q).1 =
    SO3Quat_from_Euler (vertcat (yaw + 60 * joy_yaw)
                                (20 * joy_pitch)
                                (- 20 * joy_roll)).
Proof. split; reflexivity. Qed.

(** C3 at a failing input: level attitude, pitch stick at one tenth,
    the other sticks centred.  The auto-level law asks for 2 degrees of
    pitch, the position-hold law for 2 radians; the two orientation
    setpoints differ already in their scalar parts. *)
Theorem joy_position_setpoint_differs :
  let q := vertcat4 1 0 0 0 in
  q0 (joy_auto_level (L := SO3.model) 0 (1 / 10) 0 0 q).1 = cos (PI / 180) /\
  q0 (joy_position (L := SO3.model) 0 (1 / 10) 0 0 q).1 = cos 1 /\
  (joy_position (L := SO3.model) 0 (1 / 10) 0 0 q).1 <>
  (joy_auto_level (L := SO3.model) 0 (1 / 10) 0 0 q).1.
Proof.
  intros q.
  destruct (joy_setpoints (L := SO3.model) 0 (1 / 10) 0 0 q) as [Ha Hp].
  cbv zeta in Ha, Hp.
  change (SO3EulerB321_from_Quat q) with (SO3.from_Quat (vertcat4 1 0 0 0))
    in Ha, Hp.
  rewrite from_Quat_identity in Ha, Hp. cbn [el0] in Ha, Hp.
  assert (Hauto : q0 (joy_auto_level (L := SO3.model) 0 (1 / 10) 0 0 q).1
                  = cos (PI / 180)).
  { rewrite Ha. cbn [SO3Quat_from_Euler SO3.model].
    rewrite from_Euler_pitch_q0 by (unfold deg2rad; lra).
    f_equal. unfold deg2rad. lra. }
  assert (Hpos : q0 (joy_position (L := SO3.model) 0 (1 / 10) 0 0 q).1
                 = cos 1).
  { rewrite Hp. cbn [SO3Quat_from_Euler SO3.model].
    rewrite from_Euler_pitch_q0 by lra.
    f_equal. lra. }
  split; [done|]. split; [done|].
  intros Heq. rewrite Heq, Hauto in Hpos.
  pose proof PI_RGT_0 as Hpi0. pose proof PI_4 as Hpi4.
  pose proof PI2_1 as Hpi2.
  assert (cos 1 < cos (PI / 180)) by (apply cos_decreasing_1; lra).
  lra.
Qed.

(** ** The registry *)

(** C10, as stated, fails: with "joy_acro" registered, registering a
    dictionary that binds "joy_acro" again completes, and the name is
    then bound to the newcomer; registration as the specification words
    it would have failed. *)
Lemma dict_update_accepts_duplicate :
  let d : gmap string NamedFunction := {[ "joy_acro" := f_joy_position ]} in
  derive_joy_acro !! "joy_acro" = Some f_joy_acro /\
  d !! "joy_acro" = Some f_joy_position /\
  (exists eqs : gmap string NamedFunction,
     dict_update derive_joy_acro d = Some eqs /\
     eqs !! "joy_acro" = Some f_joy_position) /\
  register_strict derive_joy_acro d = None.
Proof.
  intros d. split; [reflexivity|]. split; [reflexivity|]. split.
  - eexists. split; [reflexivity|]. reflexivity.
  - unfold register_strict. rewrite decide_False; [done|].
    unfold d, derive_joy_acro. rewrite !dom_singleton_L.
    set_solver.
Qed.

(** C10, amended.  Registering never fails: the step completes, every
    name of the new dictionary is bound to its new function (one that
    was registered before is replaced), and every other name keeps its
    binding.  The eight dictionaries of the driver carry eight different
    names, so the driver's registry binds each of them to its own
    function, and [generate_code] hands eight functions to the
    generator. *)
Theorem dict_update_replaces :
  (forall eqs d : gmap string NamedFunction,
     exists eqs' : gmap string NamedFunction,
       dict_update eqs d = Some eqs' /\
       forall name : string,
         eqs' !! name =
         match d !! name with Some f => Some f | None => eqs !! name end) /\
  (exists eqs : gmap string NamedFunction,
     main_eqs = Some eqs /\
     size eqs = 8%nat /\
     eqs !! "attitude_rate_control" = Some f_attitude_rate_control /\
     eqs !! "attitude_control" = Some f_attitude_control /\
     eqs !! "position_control" = Some f_get_u /\
     eqs !! "eulerB321_to_quat" = Some f_eulerB321_to_quat /\
     eqs !! "quat_to_eulerB321" = Some f_quat_to_eulerB321 /\
     eqs !! "joy_acro" = Some f_joy_acro /\
     eqs !! "joy_auto_level" = Some f_joy_auto_level /\
     eqs !! "joy_position" = Some f_joy_position) /\
  (exists gen : CodeGenerator,
     main = Some gen /\ length (gen_added gen) = 8%nat).
Proof.
  split; [|split].
  - intros eqs d. exists (d ∪ eqs). split; [reflexivity|].
    intros name. rewrite lookup_union.
    destruct (d !! name), (eqs !! name); reflexivity.
  - eexists. split; [reflexivity|]. vm_compute. repeat split.
  - eexists. split; [vm_compute; reflexivity|]. reflexivity.
Qed.

(** * Further properties *)

(** ** saturate: when it returns, and what a second pass does *)

(** A bound too short for some index of the range makes the loop raise. *)
Lemma saturate_loop_short (x_min x_max : list R) (n : nat) :
  forall (k : nat) (y : list R),
    (k + n <= length y)%nat ->
    (length x_min < k + n \/ length x_max < k + n)%nat ->
    (k <= length x_min)%nat -> (k <= length x_max)%nat ->
    saturate_loop x_min x_max (seq k n) y = None.
Proof.
  induction n as [|n IH]; intros k y Hy Hshort Hlo Hhi.
  - lia.
  - cbn [seq saturate_loop]. unfold saturate_body.
    destruct (lookup_lt_is_Some_2 y k) as [xk ->]; [lia|]. cbn.
    destruct (x_max !! k) as [hk|] eqn:Hhk; [|done]. cbn.
    destruct (x_min !! k) as [lk|] eqn:Hlk; [|done]. cbn.
    apply lookup_lt_Some in Hhk, Hlk.
    apply IH; rewrite ?length_insert; lia.
Qed.

(** A call that returns had bounds long enough. *)
Lemma saturate_Some_lengths (x x_min x_max y : list R) :
  saturate x x_min x_max = Some y ->
  (length x <= length x_min)%nat /\ (length x <= length x_max)%nat.
Proof.
  intros Hy. unfold saturate in Hy.
  destruct (decide (length x <= length x_min)%nat) as [Hlo|Hlo];
    [destruct (decide (length x <= length x_max)%nat) as [Hhi|Hhi]|];
    [done|exfalso..];
    rewrite (saturate_loop_short x_min x_max (length x) 0 x) in Hy;
    done || (simpl; lia).
Qed.

(** X1.  [saturate] returns exactly when both bounds have at least as
    many components as the vector; a shorter bound makes it raise. *)
Theorem saturate_returns_iff (x x_min x_max : list R) :
  is_Some (saturate x x_min x_max) <->
  (length x <= length x_min)%nat /\ (length x <= length x_max)%nat.
Proof.
  split.
  - intros [y Hy]. by apply (saturate_Some_lengths x x_min x_max y).
  - intros [Hlo Hhi].
    destruct (saturate_spec x x_min x_max Hlo Hhi) as (y & -> & _). by eexists.
Qed.

(** Clamping a clamped value changes nothing when the bounds are in
    order. *)
Lemma clamp_idem (xi lo hi : R) :
  lo <= hi -> clamp (clamp xi lo hi) lo hi = clamp xi lo hi.
Proof. intros H. apply clamp_id, clamp_range, H. Qed.

(** X2.  With ordered bounds a second pass of [saturate] over its own
    result returns that result again. *)
Theorem saturate_idempotent (x lower upper y : list R) :
  (forall i lo hi, lower !! i = Some lo -> upper !! i = Some hi -> lo <= hi) ->
  saturate x lower upper = Some y ->
  saturate y lower upper = Some y.
Proof.
  intros Hord Hy.
  destruct (saturate_Some_lengths x lower upper y Hy) as [Hlo Hhi].
  destruct (saturate_spec x lower upper Hlo Hhi) as (y0 & Hy0 & Hlen & Hc).
  rewrite Hy in Hy0. injection Hy0 as <-.
  destruct (saturate_spec y lower upper) as (z & Hz & Hlenz & Hcz);
    [lia..|].
  rewrite Hz. f_equal. apply list_eq. intros i.
  destruct (x !! i) as [xi|] eqn:Hxi.
  - destruct (lookup_lt_is_Some_2 lower i) as [lo Hl];
      [apply lookup_lt_Some in Hxi; lia|].
    destruct (lookup_lt_is_Some_2 upper i) as [hi Hh];
      [apply lookup_lt_Some in Hxi; lia|].
    rewrite (Hcz i (clamp xi lo hi) lo hi); [|by apply Hc|done..].
    rewrite (Hc i xi lo hi) by done.
    f_equal. apply clamp_idem. by apply (Hord i).
  - apply lookup_ge_None in Hxi.
    rewrite !lookup_ge_None_2; [done|lia..].
Qed.

Lemma saturate_idempotent_witness :
  saturate [clamp 2 (-1) 1; clamp 0 (-1) 1] [-1; -1] [1; 1]
  = Some [clamp 2 (-1) 1; clamp 0 (-1) 1].
Proof.
  apply (saturate_idempotent [2; 0] [-1; -1] [1; 1]).
  - intros i lo hi Hl Hh.
    destruct i as [|[|i]]; simpl in Hl, Hh; simplify_eq; lra.
  - reflexivity.
Defined.

(** With a symmetric bound [b >= 0] the clamp is odd. *)
Lemma clamp_odd (xi b : R) :
  0 <= b -> clamp (- xi) (- b) b = - clamp xi (- b) b.
Proof.
  intros Hb.
  destruct (clamp_cases xi (- b) b) as [[? ->]|[(? & ? & ->)|[? ->]]];
  destruct (clamp_cases (- xi) (- b) b) as [[? ->]|[(? & ? & ->)|[? ->]]];
  lra.
Qed.

(** ** The rate law: symmetry, linear regime, moment bound, ramp *)

(** X3.  The rate law is odd: negating measurement, setpoint and
    integral state negates the moment and the returned state. *)
Theorem attitude_rate_control_odd (omega omega_r omega_i : Vec3) (dt : R)
  (M omega_i' : Vec3) :
  attitude_rate_control omega omega_r omega_i dt = Some (M, omega_i') ->
  attitude_rate_control (vneg omega) (vneg omega_r) (vneg omega_i) dt
  = Some (vneg M, vneg omega_i').
Proof.
  rewrite !attitude_rate_control_eq. cbv zeta. intros [= <- <-].
  unfold vneg, vadd, vmul, vsub; cbn [el0 el1 el2].
  assert (Hb : 0 <= 1.0) by lra.
  assert (Ho : forall a e : R,
    clamp (- a + (- e) * dt) (- (1.0)) 1.0 = - clamp (a + e * dt) (- (1.0)) 1.0).
  { intros a e. rewrite <- (clamp_odd _ 1.0 Hb). f_equal. ring. }
  replace (- el0 omega_r - - el0 omega) with (- (el0 omega_r - el0 omega)) by ring.
  replace (- el1 omega_r - - el1 omega) with (- (el1 omega_r - el1 omega)) by ring.
  replace (- el2 omega_r - - el2 omega) with (- (el2 omega_r - el2 omega)) by ring.
  rewrite !Ho. f_equal. f_equal; apply vec3_eq; ring.
Qed.

Lemma attitude_rate_control_odd_witness :
  attitude_rate_control (vneg (vertcat 0 0 0)) (vneg (vertcat 1 0 0))
    (vneg (vertcat 0 0 0)) 1
  = Some (vneg (vadd (vmul (vertcat kp_rollpitch_rate kp_rollpitch_rate
                                    kp_yaw_rate)
                           (vsub (vertcat 1 0 0) (vertcat 0 0 0)))
                     (vmul (vertcat ki_rollpitch_rate ki_rollpitch_rate
                                    ki_yaw_rate)
                           (vertcat (clamp (0 + (1 - 0) * 1) (- (1.0)) 1.0)
                                    (clamp (0 + (0 - 0) * 1) (- (1.0)) 1.0)
                                    (clamp (0 + (0 - 0) * 1) (- (1.0)) 1.0)))),
          vneg (vertcat (clamp (0 + (1 - 0) * 1) (- (1.0)) 1.0)
                        (clamp (0 + (0 - 0) * 1) (- (1.0)) 1.0)
                        (clamp (0 + (0 - 0) * 1) (- (1.0)) 1.0))).
Proof.
  apply (attitude_rate_control_odd (vertcat 0 0 0) (vertcat 1 0 0)
           (vertcat 0 0 0) 1).
  reflexivity.
Defined.

(** X4.  While the accumulated error stays within the bound the law is
    the plain PI law: the state is [omega_i + e*dt] and the moment is
    [Kp .* e + Ki .* (omega_i + e*dt)]. *)
Theorem attitude_rate_control_linear (omega omega_r omega_i : Vec3) (dt : R) :
  let e := vsub omega_r omega in
  let acc := vadd omega_i (vmuls e dt) in
  within integral_bound acc ->
  attitude_rate_control omega omega_r omega_i dt =
  Some (vadd (vmul (vertcat kp_rollpitch_rate kp_rollpitch_rate kp_yaw_rate) e)
             (vmul (vertcat ki_rollpitch_rate ki_rollpitch_rate ki_yaw_rate)
                   acc),
        acc).
Proof.
  intros e acc (H0 & H1 & H2).
  rewrite attitude_rate_control_eq. fold e.
  unfold integral_bound in *; cbn [el0 el1 el2] in *.
  assert (Hacc : vertcat
    (clamp (el0 omega_i + el0 e * dt) (- (1.0)) 1.0)
    (clamp (el1 omega_i + el1 e * dt) (- (1.0)) 1.0)
    (clamp (el2 omega_i + el2 e * dt) (- (1.0)) 1.0) = acc).
  { unfold acc, vadd, vmuls; cbn [el0 el1 el2].
    unfold acc, vadd, vmuls in H0, H1, H2; cbn [el0 el1 el2] in H0, H1, H2.
    apply vec3_eq; apply clamp_id; lra. }
  by rewrite Hacc.
Qed.

Lemma attitude_rate_control_linear_witness :
  attitude_rate_control (vertcat 0 0 0) (vertcat (1 / 2) 0 0)
                        (vertcat 0 0 0) 1 =
  Some (vadd (vmul (vertcat kp_rollpitch_rate kp_rollpitch_rate kp_yaw_rate)
                   (vsub (vertcat (1 / 2) 0 0) (vertcat 0 0 0)))
             (vmul (vertcat ki_rollpitch_rate ki_rollpitch_rate ki_yaw_rate)
                   (vadd (vertcat 0 0 0)
                      (vmuls (vsub (vertcat (1 / 2) 0 0) (vertcat 0 0 0)) 1))),
        vadd (vertcat 0 0 0)
             (vmuls (vsub (vertcat (1 / 2) 0 0) (vertcat 0 0 0)) 1)).
Proof.
  apply (attitude_rate_control_linear (vertcat 0 0 0) (vertcat (1 / 2) 0 0)
           (vertcat 0 0 0) 1).
  unfold within, integral_bound; simpl. lra.
Defined.

(** X5.  The integral term of the moment is bounded whatever the
    history: each component of [M] is within [Ki] of [Kp .* e]. *)
Theorem attitude_rate_control_moment_bound
  (omega omega_r omega_i : Vec3) (dt : R) (M omega_i' : Vec3) :
  attitude_rate_control omega omega_r omega_i dt = Some (M, omega_i') ->
  let e := vsub omega_r omega in
  Rabs (el0 M - kp_rollpitch_rate * el0 e) <= ki_rollpitch_rate /\
  Rabs (el1 M - kp_rollpitch_rate * el1 e) <= ki_rollpitch_rate /\
  Rabs (el2 M - kp_yaw_rate * el2 e) <= ki_yaw_rate.
Proof.
  rewrite attitude_rate_control_eq. cbv zeta. intros [= <- <-].
  unfold vadd, vmul; cbn [el0 el1 el2].
  unfold ki_rollpitch_rate, ki_yaw_rate, kp_rollpitch_rate, kp_yaw_rate.
  repeat split; apply Rabs_le;
    match goal with |- context [clamp ?a ?l ?h] =>
      pose proof (clamp_range a l h) end; lra.
Qed.

Lemma attitude_rate_control_moment_bound_witness :
  let M := vadd (vmul (vertcat kp_rollpitch_rate kp_rollpitch_rate kp_yaw_rate)
                   (vsub (vertcat 9 0 0) (vertcat 0 0 0)))
             (vmul (vertcat ki_rollpitch_rate ki_rollpitch_rate ki_yaw_rate)
                   (vertcat (clamp (0 + (9 - 0) * 1) (- (1.0)) 1.0)
                            (clamp (0 + (0 - 0) * 1) (- (1.0)) 1.0)
                            (clamp (0 + (0 - 0) * 1) (- (1.0)) 1.0))) in
  let e := vsub (vertcat 9 0 0) (vertcat 0 0 0) in
  Rabs (el0 M - kp_rollpitch_rate * el0 e) <= ki_rollpitch_rate /\
  Rabs (el1 M - kp_rollpitch_rate * el1 e) <= ki_rollpitch_rate /\
  Rabs (el2 M - kp_yaw_rate * el2 e) <= ki_yaw_rate.
Proof.
  intros M e.
  apply (attitude_rate_control_moment_bound (vertcat 0 0 0) (vertcat 9 0 0)
           (vertcat 0 0 0) 1 M
           (vertcat (clamp (0 + (9 - 0) * 1) (- (1.0)) 1.0)
                    (clamp (0 + (0 - 0) * 1) (- (1.0)) 1.0)
                    (clamp (0 + (0 - 0) * 1) (- (1.0)) 1.0))).
  reflexivity.
Defined.

(** Clamping after the first step and again after [n] more is clamping
    the sum of all [n + 1] steps, from a start within the bound. *)
Lemma clamp_ramp (s d : R) (n : nat) :
  -1 <= s <= 1 ->
  clamp (clamp (s + d) (- (1.0)) 1.0 + INR n * d) (- (1.0)) 1.0
  = clamp (s + INR (S n) * d) (- (1.0)) 1.0.
Proof.
  intros Hs. rewrite S_INR.
  pose proof (pos_INR n) as Hn.
  assert (Hnd : 0 <= d /\ 0 <= INR n * d \/ d <= 0 /\ INR n * d <= 0)
    by (destruct (Rle_dec 0 d); [left|right]; split; nra).
  destruct (clamp_cases (s + d) (- (1.0)) 1.0)
    as [[? ->]|[(? & ? & ->)|[? ->]]];
  destruct (clamp_cases (s + (INR n + 1) * d) (- (1.0)) 1.0)
    as [[? ->]|[(? & ? & ->)|[? ->]]];
  match goal with |- clamp ?a ?l ?h = _ =>
    destruct (clamp_cases a l h) as [[? ->]|[(? & ? & ->)|[? ->]]] end;
  nra.
Qed.

(** X6.  From a state within the bound, [n] ticks at constant
    measurement, setpoint and [dt] leave the integral at the clamp of
    [omega_i + n * e * dt]: it ramps linearly and then sits at the
    bound. *)
Theorem rate_loop_ramp (omega omega_r : Vec3) (dt : R) (n : nat) :
  forall omega_i : Vec3,
    within integral_bound omega_i ->
    let e := vsub omega_r omega in
    rate_loop (replicate n (omega, omega_r, dt)) omega_i =
    Some (vertcat
      (clamp (el0 omega_i + INR n * (el0 e * dt)) (- (1.0)) 1.0)
      (clamp (el1 omega_i + INR n * (el1 e * dt)) (- (1.0)) 1.0)
      (clamp (el2 omega_i + INR n * (el2 e * dt)) (- (1.0)) 1.0)).
Proof.
  induction n as [|n IH]; intros omega_i Hin e.
  - destruct omega_i as [a b c].
    unfold within, integral_bound in Hin; cbn [el0 el1 el2] in *.
    cbn [replicate rate_loop INR]. f_equal.
    apply vec3_eq; symmetry;
      (etransitivity; [apply clamp_id; lra|lra]).
  - cbn [replicate]. rewrite rate_loop_cons. fold e.
    rewrite IH by apply clamped_within. fold e. cbn [el0 el1 el2].
    unfold within, integral_bound in Hin; cbn [el0 el1 el2] in Hin.
    f_equal. apply vec3_eq; apply clamp_ramp; lra.
Qed.

Lemma rate_loop_ramp_witness :
  rate_loop (replicate 5 (vertcat 0 0 0, vertcat 1 0 0, 1 / 2))
            (vertcat 0 0 0) =
  Some (vertcat
    (clamp (0 + INR 5 * ((1 - 0) * (1 / 2))) (- (1.0)) 1.0)
    (clamp (0 + INR 5 * ((0 - 0) * (1 / 2))) (- (1.0)) 1.0)
    (clamp (0 + INR 5 * ((0 - 0) * (1 / 2))) (- (1.0)) 1.0)).
Proof.
  apply (rate_loop_ramp (vertcat 0 0 0) (vertcat 1 0 0) (1 / 2) 5
           (vertcat 0 0 0)).
  unfold within, integral_bound; simpl. lra.
Defined.

(** ** The position law: clamp, tilt, and the desired frame *)

(** X7.  The clamp leaves a term within the cap alone and brings a
    longer one to the cap exactly: the clamped 2-norm is the smaller of
    the candidate's 2-norm and 0.3. *)
Theorem p_term_clamp_norm_min (p : Vec3) :
  (norm_2 p <= 0.3 -> p_term_clamp p = p) /\
  norm_2 (p_term_clamp p) = Rmin (norm_2 p) 0.3.
Proof.
  unfold p_term_clamp, if_else, p_norm_max.
  destruct (Rgt_dec (norm_2 p) 0.3) as [Hgt|Hle].
  - rewrite sx_gt_true by done. split; [lra|].
    rewrite Rmin_right by lra.
    pose proof (norm_2_sqr p) as Hs.
    unfold norm_2 at 1. unfold vdiv, smul; cbn [el0 el1 el2].
    apply sqrt_lem_1; [nra|lra|].
    transitivity
      (0.3 * 0.3 * (el0 p * el0 p + el1 p * el1 p + el2 p * el2 p)
       / (norm_2 p * norm_2 p)).
    + rewrite <- Hs. field. lra.
    + field. lra.
  - rewrite sx_gt_false by lra. split; [done|].
    rewrite Rmin_left by lra. done.
Qed.

(** The thrust vector of the position law: unit body-up with vertical
    component at least 0.8. *)
Lemma zB_of_thrust_unit (p_term : Vec3) :
  let zB := zB_of (vadd (p_term_clamp p_term) T0) in
  dot zB zB = 1 /\ 0.8 <= el2 zB.
Proof.
  intros zB. unfold zB. rewrite zB_of_thrust_regular.
  pose proof (p_term_clamp_norm p_term) as Hc.
  pose proof (trim_norm_bounds _ Hc) as [Hlo Hhi].
  pose proof (norm_2_sqr (p_term_clamp p_term)) as Hsp.
  pose proof (norm_2_nonneg (p_term_clamp p_term)) as Hnp.
  pose proof (norm_2_sqr (vadd (p_term_clamp p_term) T0)) as Hs.
  set (T := vadd (p_term_clamp p_term) T0) in *.
  set (n := norm_2 T) in *.
  destruct (p_term_clamp p_term) as [a b c].
  unfold T, vadd, T0, vdiv, zW in *; cbn [el0 el1 el2] in *.
  split.
  - unfold dot; cbn [el0 el1 el2].
    transitivity (((a + 0 / 2) * (a + 0 / 2) + (b + 0 / 2) * (b + 0 / 2)
                   + (c + 1 / 2) * (c + 1 / 2)) / (n * n)).
    + field. lra.
    + rewrite <- Hs. field. lra.
  - apply (Rmult_le_reg_r n); [lra|].
    replace ((c + 1 / 2) / n * n) with (c + 1 / 2) by (field; lra).
    assert (Hsq : a * a + b * b + c * c <= 0.09) by nra.
    assert (Hc2 : -0.3 <= c <= 0.3) by (split; nra).
    pose proof (Rle_0_sqr (c + 0.18)) as Hq. unfold Rsqr in Hq.
    assert (H64 : 0.64 * (n * n) <= (c + 1 / 2) * (c + 1 / 2)) by nra.
    destruct (Rle_dec (0.8 * n) (c + 1 / 2)) as [Hok|Hno]; [lra|].
    assert (0 < (0.8 * n - (c + 1 / 2)) * (0.8 * n + (c + 1 / 2)))
      by (apply Rmult_lt_0_compat; lra).
    nra.
Qed.

(** With a unit body-up that is not horizontal, the cross product with
    the heading is long enough: line 391 normalises, and the result is a
    unit vector orthogonal to body-up. *)
Lemma yB_of_unit_orth (zB : Vec3) (yt : R) :
  dot zB zB = 1 -> 0.8 <= el2 zB ->
  dot (yB_of zB yt) (yB_of zB yt) = 1 /\ dot (yB_of zB yt) zB = 0.
Proof.
  intros Hz Hz2. destruct zB as [z0 z1 z2].
  unfold dot in *; cbn [el0 el1 el2] in *.
  pose proof (sin2_cos2 yt) as Hsc. unfold Rsqr in Hsc.
  unfold yB_of, if_else, cross; cbn [el0 el1 el2].
  set (u := vertcat (z1 * 0 - z2 * sin yt) (z2 * cos yt - z0 * 0)
                    (z0 * sin yt - z1 * cos yt)).
  pose proof (norm_2_sqr u) as Hs. pose proof (norm_2_nonneg u) as Hn.
  set (n := norm_2 u) in *. unfold u in Hs; cbn [el0 el1 el2] in Hs.
  assert (Hlow : 0.64 <= n * n).
  { rewrite Hs.
    assert (z2 * z2 * 1 <= (z1 * 0 - z2 * sin yt) * (z1 * 0 - z2 * sin yt)
            + (z2 * cos yt - z0 * 0) * (z2 * cos yt - z0 * 0)).
    { rewrite <- Hsc. apply Req_le. ring. }
    assert (0.64 <= z2 * z2) by nra.
    pose proof (Rle_0_sqr (z0 * sin yt - z1 * cos yt)) as Hq.
    unfold Rsqr in Hq. lra. }
  assert (Hnpos : 0.8 <= n) by nra.
  rewrite sx_gt_true by lra.
  unfold u, vdiv; cbn [el0 el1 el2]. split.
  - transitivity (((z1 * 0 - z2 * sin yt) * (z1 * 0 - z2 * sin yt)
                   + (z2 * cos yt - z0 * 0) * (z2 * cos yt - z0 * 0)
                   + (z0 * sin yt - z1 * cos yt) * (z0 * sin yt - z1 * cos yt))
                  / (n * n)).
    + field. lra.
    + rewrite <- Hs. field. lra.
  - field. lra.
Qed.

(** Two orthogonal unit vectors and their cross product. *)
Lemma cross_frame (y z : Vec3) :
  dot y y = 1 -> dot z z = 1 -> dot y z = 0 ->
  let x := cross y z in
  dot x x = 1 /\ dot x y = 0 /\ dot x z = 0 /\ cross x y = z.
Proof.
  destruct y as [y0 y1 y2], z as [z0 z1 z2].
  unfold dot, cross; cbn [el0 el1 el2]. intros Hy Hz Hyz.
  split; [nsatz|]. split; [ring|]. split; [ring|].
  apply vec3_eq; nsatz.
Qed.

(** X8.  For every input of the position law the desired body-up axis
    (third column of the desired attitude matrix handed to
    [from_Matrix]) has a vertical component of at least 0.8: the
    commanded tilt never exceeds acos 0.8, about 36.9 degrees. *)
Theorem position_control_tilt_bounded `{L : RotationLib}
  (pt_w vt_w at_w : Vec3) (qc_wb : Quat) (p_w v_b : Vec3) (q_wb : Quat) :
  let v_w := matvec (SO3Quat_to_Matrix q_wb) v_b in
  let p_term := p_term_clamp (p_term_raw (vsub p_w pt_w) (vsub v_w vt_w) at_w) in
  let Rd_wb := Rd_wb_of (vadd p_term T0) (el0 (SO3EulerB321_from_Quat qc_wb)) in
  (position_control pt_w vt_w at_w qc_wb p_w v_b q_wb).2
    = SO3Quat_from_Matrix Rd_wb /\
  0.8 <= el2 (col2 Rd_wb).
Proof.
  intros v_w p_term Rd_wb. split; [reflexivity|].
  unfold Rd_wb, Rd_wb_of; cbn [col2]. apply zB_of_thrust_unit.
Qed.

(** With a unit body-up of vertical component at least 0.8 the test of
    line 391 succeeds: the cross product with the heading is at least
    0.8 long. *)
Lemma yB_of_test (zB : Vec3) (yt : R) :
  dot zB zB = 1 -> 0.8 <= el2 zB ->
  sx_gt (norm_2 (cross zB (vertcat (cos yt) (sin yt) 0))) 1e-3 = true.
Proof.
  intros Hz Hz2. destruct zB as [z0 z1 z2].
  unfold dot in *; cbn [el0 el1 el2] in *.
  pose proof (sin2_cos2 yt) as Hsc. unfold Rsqr in Hsc.
  unfold cross; cbn [el0 el1 el2].
  set (u := vertcat (z1 * 0 - z2 * sin yt) (z2 * cos yt - z0 * 0)
                    (z0 * sin yt - z1 * cos yt)).
  pose proof (norm_2_sqr u) as Hs. pose proof (norm_2_nonneg u) as Hn.
  set (n := norm_2 u) in *. unfold u in Hs; cbn [el0 el1 el2] in Hs.
  assert (Hlow : 0.64 <= n * n).
  { rewrite Hs.
    assert (z2 * z2 * 1 <= (z1 * 0 - z2 * sin yt) * (z1 * 0 - z2 * sin yt)
            + (z2 * cos yt - z0 * 0) * (z2 * cos yt - z0 * 0)).
    { rewrite <- Hsc. apply Req_le. ring. }
    assert (0.64 <= z2 * z2) by nra.
    pose proof (Rle_0_sqr (z0 * sin yt - z1 * cos yt)) as Hq.
    unfold Rsqr in Hq. lra. }
  apply sx_gt_true. nra.
Qed.

(** X9.  For every input of the position law the matrix handed to
    [from_Matrix] is a rotation matrix: its columns are unit vectors,
    pairwise orthogonal, and right-handed.  Neither fallback branch
    (lines 383 and 391) is selected over the reals: both tests
    succeed. *)
Theorem position_control_frame_orthonormal `{L : RotationLib}
  (pt_w vt_w at_w : Vec3) (qc_wb : Quat) (p_w v_b : Vec3) (q_wb : Quat) :
  let v_w := matvec (SO3Quat_to_Matrix q_wb) v_b in
  let p_term := p_term_clamp (p_term_raw (vsub p_w pt_w) (vsub v_w vt_w) at_w) in
  let Rd_wb := Rd_wb_of (vadd p_term T0) (el0 (SO3EulerB321_from_Quat qc_wb)) in
  let xB := col0 Rd_wb in
  let yB := col1 Rd_wb in
  let zB := col2 Rd_wb in
  (position_control pt_w vt_w at_w qc_wb p_w v_b q_wb).2
    = SO3Quat_from_Matrix Rd_wb /\
  dot xB xB = 1 /\ dot yB yB = 1 /\ dot zB zB = 1 /\
  dot xB yB = 0 /\ dot yB zB = 0 /\ dot xB zB = 0 /\
  cross xB yB = zB /\
  sx_gt (norm_2 (vadd p_term T0)) 1e-3 = true /\
  sx_gt (norm_2 (cross zB
           (vertcat (cos (el0 (SO3EulerB321_from_Quat qc_wb)))
                    (sin (el0 (SO3EulerB321_from_Quat qc_wb))) 0))) 1e-3
    = true.
Proof.
  intros v_w p_term Rd_wb xB yB zB. split; [reflexivity|].
  unfold xB, yB, zB, Rd_wb, Rd_wb_of; cbn [col0 col1 col2].
  unfold p_term. set (p := p_term_raw _ _ _).
  destruct (zB_of_thrust_unit p) as [Hz Hz2].
  destruct (yB_of_unit_orth _ (el0 (SO3EulerB321_from_Quat qc_wb)) Hz Hz2)
    as [Hy Hyz].
  destruct (cross_frame _ _ Hy Hz Hyz) as (Hx & Hxy & Hxz & Hr).
  pose proof (trim_norm_bounds _ (p_term_clamp_norm p)) as [Hlo _].
  repeat split; try done.
  - apply sx_gt_true. lra.
  - by apply yB_of_test.
Qed.

(** The normalised cross product of line 389 is orthogonal to the
    heading, and the body x axis built from it leans towards the
    heading. *)
Lemma yB_of_heading (zB : Vec3) (yt : R) :
  dot zB zB = 1 -> 0.8 <= el2 zB ->
  let xC := vertcat (cos yt) (sin yt) 0 in
  dot (yB_of zB yt) xC = 0 /\ 0.8 <= dot (cross (yB_of zB yt) zB) xC.
Proof.
  intros Hz Hz2 xC. destruct zB as [z0 z1 z2].
  unfold dot in *; cbn [el0 el1 el2] in *.
  pose proof (sin2_cos2 yt) as Hsc. unfold Rsqr in Hsc.
  unfold yB_of, if_else, cross, xC; cbn [el0 el1 el2].
  set (u := vertcat (z1 * 0 - z2 * sin yt) (z2 * cos yt - z0 * 0)
                    (z0 * sin yt - z1 * cos yt)).
  pose proof (norm_2_sqr u) as Hs. pose proof (norm_2_nonneg u) as Hn.
  set (n := norm_2 u) in *. unfold u in Hs; cbn [el0 el1 el2] in Hs.
  assert (Hlow : 0.64 <= n * n).
  { rewrite Hs.
    assert (z2 * z2 * 1 <= (z1 * 0 - z2 * sin yt) * (z1 * 0 - z2 * sin yt)
            + (z2 * cos yt - z0 * 0) * (z2 * cos yt - z0 * 0)).
    { rewrite <- Hsc. apply Req_le. ring. }
    assert (0.64 <= z2 * z2) by nra.
    pose proof (Rle_0_sqr (z0 * sin yt - z1 * cos yt)) as Hq.
    unfold Rsqr in Hq. lra. }
  assert (Hnpos : 0.8 <= n) by nra.
  rewrite sx_gt_true by lra.
  unfold u, vdiv; cbn [el0 el1 el2]. split.
  - field. lra.
  - replace (((z2 * cos yt - z0 * 0) / n * z2
              - (z0 * sin yt - z1 * cos yt) / n * z1) * cos yt
             + ((z0 * sin yt - z1 * cos yt) / n * z0
                - (z1 * 0 - z2 * sin yt) / n * z2) * sin yt
             + ((z1 * 0 - z2 * sin yt) / n * z1
                - (z2 * cos yt - z0 * 0) / n * z0) * 0)
      with (n * n / n); [replace (n * n / n) with n by (field; lra); lra|].
    rewrite Hs. field. lra.
Qed.

(** X22.  For every input of the position law the desired body y axis
    is orthogonal to the camera heading [(cos yt, sin yt, 0)] and the
    desired body x axis has a component of at least 0.8 along it: the
    nose points along the camera yaw, tilted by the thrust direction
    only. *)
Theorem position_control_heading `{L : RotationLib}
  (pt_w vt_w at_w : Vec3) (qc_wb : Quat) (p_w v_b : Vec3) (q_wb : Quat) :
  let v_w := matvec (SO3Quat_to_Matrix q_wb) v_b in
  let p_term := p_term_clamp (p_term_raw (vsub p_w pt_w) (vsub v_w vt_w) at_w) in
  let yt := el0 (SO3EulerB321_from_Quat qc_wb) in
  let Rd_wb := Rd_wb_of (vadd p_term T0) yt in
  let xC := vertcat (cos yt) (sin yt) 0 in
  (position_control pt_w vt_w at_w qc_wb p_w v_b q_wb).2
    = SO3Quat_from_Matrix Rd_wb /\
  dot (col1 Rd_wb) xC = 0 /\ 0.8 <= dot (col0 Rd_wb) xC.
Proof.
  intros v_w p_term yt Rd_wb xC. split; [reflexivity|].
  unfold Rd_wb, Rd_wb_of; cbn [col0 col1].
  unfold p_term. set (p := p_term_raw _ _ _).
  destruct (zB_of_thrust_unit p) as [Hz Hz2].
  apply (yB_of_heading _ yt Hz Hz2).
Qed.

(** ** The stick mappers: ranges *)

(** X10.  Acro mapper: the rates are the sticks times 60 degrees per
    second (roll reversed) and the thrust is affine in the stick; with
    every stick within [-1, 1] each rate is within PI/3 and the thrust
    within [0.4, 0.6]. *)
Theorem joy_acro_range (joy_roll joy_pitch joy_yaw joy_thrust : R) :
  stick joy_roll -> stick joy_pitch -> stick joy_yaw -> stick joy_thrust ->
  let w := (joy_acro joy_roll joy_pitch joy_yaw joy_thrust).1 in
  let thrust := (joy_acro joy_roll joy_pitch joy_yaw joy_thrust).2 in
  w = vertcat (- (PI / 3) * joy_roll) (PI / 3 * joy_pitch) (PI / 3 * joy_yaw) /\
  Rabs (el0 w) <= PI / 3 /\ Rabs (el1 w) <= PI / 3 /\ Rabs (el2 w) <= PI / 3 /\
  0.4 <= thrust <= 0.6 /\
  thrust = 0.1 * joy_thrust + 0.5.
Proof.
  intros Hr Hp Hy Ht w thrust. unfold stick in *. pose proof PI_RGT_0 as Hpi.
  assert (Hw : w = vertcat (- (PI / 3) * joy_roll) (PI / 3 * joy_pitch)
                           (PI / 3 * joy_yaw)).
  { unfold w, joy_acro, rollpitch_rate_max, yaw_rate_max, deg2rad;
      cbn [fst]. apply vec3_eq; field. }
  split; [done|]. rewrite Hw; cbn [el0 el1 el2].
  repeat split; try (apply Rabs_le; split; nra);
    unfold thrust, joy_acro, thrust_delta, thrust_trim; cbn [snd]; lra.
Qed.

Lemma joy_acro_range_witness :
  let w := (joy_acro 1 0 0 0).1 in
  let thrust := (joy_acro 1 0 0 0).2 in
  w = vertcat (- (PI / 3) * 1) (PI / 3 * 0) (PI / 3 * 0) /\
  Rabs (el0 w) <= PI / 3 /\ Rabs (el1 w) <= PI / 3 /\ Rabs (el2 w) <= PI / 3 /\
  0.4 <= thrust <= 0.6 /\
  thrust = 0.1 * 0 + 0.5.
Proof.
  apply (joy_acro_range 1 0 0 0); unfold stick; lra.
Defined.

(** X11.  The horizontal world velocity the position-hold mapper
    computes has the speed of the body-frame command whatever the yaw,
    [vel_max * sqrt(pitch^2 + roll^2)], and the vertical component is
    the thrust stick. *)
Theorem joy_position_velocity_speed (joy_roll joy_pitch joy_thrust yaw : R) :
  let vw := joy_position_velocity joy_roll joy_pitch joy_thrust yaw in
  el0 vw * el0 vw + el1 vw * el1 vw
    = vel_max * vel_max * (joy_pitch * joy_pitch + joy_roll * joy_roll) /\
  el2 vw = joy_thrust.
Proof.
  intros vw. unfold vw, joy_position_velocity; cbn [el0 el1 el2].
  split; [|done].
  pose proof (sin2_cos2 yaw) as H. unfold Rsqr in H.
  set (c := cos yaw) in *. set (s := sin yaw) in *. nsatz.
Qed.

(** X12.  Auto-level mapper over the model of the rotation library:
    with pitch and roll sticks within [-1, 1] and the commanded yaw
    within (-PI, PI], the orientation setpoint has exactly the commanded
    body-321 angles: the current yaw plus 60 degrees per unit of yaw
    stick, and pitch and roll of at most 20 degrees. *)
Theorem joy_auto_level_setpoint_angles
  (joy_roll joy_pitch joy_yaw joy_thrust : R) (q : Quat) :
  let yaw := el0 (SO3.from_Quat q) in
  stick joy_roll -> stick joy_pitch ->
  - PI < yaw + PI / 3 * joy_yaw <= PI ->
  SO3.from_Quat
    (joy_auto_level (L := SO3.model) joy_roll joy_pitch joy_yaw joy_thrust q).1
  = vertcat (yaw + PI / 3 * joy_yaw) (PI / 9 * joy_pitch)
            (- (PI / 9) * joy_roll).
Proof.
  intros yaw Hr Hp Hy. unfold stick in *. pose proof PI_RGT_0 as Hpi.
  destruct (joy_setpoints (L := SO3.model) joy_roll joy_pitch joy_yaw
              joy_thrust q) as [-> _].
  change (el0 (SO3EulerB321_from_Quat q)) with yaw.
  cbn [SO3Quat_from_Euler SO3.model].
  replace (yaw + 60 * deg2rad * joy_yaw) with (yaw + PI / 3 * joy_yaw)
    by (unfold deg2rad; field).
  replace (20 * deg2rad * joy_pitch) with (PI / 9 * joy_pitch)
    by (unfold deg2rad; field).
  replace (-20 * deg2rad * joy_roll) with (- (PI / 9) * joy_roll)
    by (unfold deg2rad; field).
  apply from_Quat_from_Euler; [done|split; nra..].
Qed.

Lemma joy_auto_level_setpoint_angles_witness :
  SO3.from_Quat
    (joy_auto_level (L := SO3.model) 1 (-1) 0 0 (vertcat4 1 0 0 0)).1
  = vertcat (el0 (SO3.from_Quat (vertcat4 1 0 0 0)) + PI / 3 * 0)
            (PI / 9 * (-1)) (- (PI / 9) * 1).
Proof.
  pose proof PI_RGT_0 as Hpi.
  apply (joy_auto_level_setpoint_angles 1 (-1) 0 0 (vertcat4 1 0 0 0)).
  - unfold stick; lra.
  - unfold stick; lra.
  - rewrite from_Quat_identity. simpl. lra.
Defined.

(** ** The attitude law over the model of the rotation library *)

(** The rotation from a unit [q] to [q * r] is [r]. *)
Lemma product_inverse_product (q r : Quat) :
  unit_quat q -> SO3.product (SO3.inverse q) (SO3.product q r) = r.
Proof.
  destruct q as [a b c d], r as [r0 r1 r2 r3].
  unfold unit_quat, SO3.product, SO3.inverse; cbn [q0 q1 q2 q3].
  intros H. f_equal; nsatz.
Qed.

Lemma product_identity_l (r : Quat) :
  SO3.product (SO3.inverse (vertcat4 1 0 0 0)) r = r.
Proof.
  destruct r. unfold SO3.product, SO3.inverse; cbn [q0 q1 q2 q3].
  f_equal; ring.
Qed.

(** X13.  The attitude law sees only the relative rotation: from a unit
    [q] towards [q * r] it commands what it commands from the identity
    towards [r]. *)
Theorem attitude_control_left_invariant (q r : Quat) :
  unit_quat q ->
  attitude_control (L := SO3.model) q (SO3.product q r)
  = attitude_control (L := SO3.model) (vertcat4 1 0 0 0) r.
Proof.
  intros Hq. unfold attitude_control.
  cbn [SO3Quat_log SO3Quat_product SO3Quat_inverse SO3.model].
  by rewrite product_inverse_product, product_identity_l.
Qed.

Lemma attitude_control_left_invariant_witness :
  attitude_control (L := SO3.model) (vertcat4 0 0 1 0)
    (SO3.product (vertcat4 0 0 1 0) (vertcat4 0 1 0 0))
  = attitude_control (L := SO3.model) (vertcat4 1 0 0 0) (vertcat4 0 1 0 0).
Proof.
  apply (attitude_control_left_invariant (vertcat4 0 0 1 0) (vertcat4 0 1 0 0)).
  unfold unit_quat; simpl. lra.
Defined.

Lemma log_inverse (p : Quat) : SO3.log (SO3.inverse p) = vneg (SO3.log p).
Proof.
  unfold SO3.log, SO3.inverse; cbn [q0 q1 q2 q3].
  unfold vneg; cbn [el0 el1 el2]. apply vec3_eq; unfold Rdiv; ring.
Qed.

(** X14.  Swapping current and desired orientation negates the
    commanded angular velocity. *)
Theorem attitude_control_swap (q q_r : Quat) :
  attitude_control (L := SO3.model) q_r q
  = vneg (attitude_control (L := SO3.model) q q_r).
Proof.
  unfold attitude_control.
  cbn [SO3Quat_log SO3Quat_product SO3Quat_inverse SO3.model].
  replace (SO3.product (SO3.inverse q_r) q)
    with (SO3.inverse (SO3.product (SO3.inverse q) q_r)).
  - rewrite log_inverse. unfold vmul, vneg; cbn [el0 el1 el2].
    apply vec3_eq; ring.
  - destruct q, q_r. unfold SO3.product, SO3.inverse; cbn [q0 q1 q2 q3].
    f_equal; ring.
Qed.

(** The logarithm of a rotation by [a] about the z axis. *)
Lemma log_yaw (a : R) :
  - (2 * PI) <= a <= 2 * PI -> Rabs (sin (a / 2)) > 1e-7 ->
  SO3.log (vertcat4 (cos (a / 2)) 0 0 (sin (a / 2))) = vertcat 0 0 a.
Proof.
  intros Ha Hs. unfold SO3.log; cbn [q0 q1 q2 q3].
  assert (sin (a / 2) <> 0) by (intros E; rewrite E, Rabs_R0 in Hs; lra).
  destruct (Rle_dec 0 a) as [Hpos|Hneg].
  - rewrite acos_cos by lra.
    replace (2 * (a / 2) / 2) with (a / 2) by lra.
    apply vec3_eq; field; done.
  - rewrite <- (cos_neg (a / 2)). rewrite acos_cos by lra.
    replace (2 * - (a / 2) / 2) with (- (a / 2)) by lra.
    rewrite sin_neg.
    apply vec3_eq; field; done.
Qed.

(** X15.  A pure yaw error: towards the orientation reached from a unit
    [q] by turning [a] about the body z axis, the law commands the yaw
    rate [kp_yaw * a] and no roll or pitch rate, for [a] within one turn
    either way and [|sin (a/2)| > 1e-7], away from no turn and from a
    full turn. *)
Theorem attitude_control_yaw_error (q : Quat) (a : R) :
  unit_quat q ->
  - (2 * PI) <= a <= 2 * PI -> Rabs (sin (a / 2)) > 1e-7 ->
  attitude_control (L := SO3.model) q
    (SO3.product q (vertcat4 (cos (a / 2)) 0 0 (sin (a / 2))))
  = vertcat 0 0 (kp_yaw * a).
Proof.
  intros Hq Ha Hs. unfold attitude_control.
  cbn [SO3Quat_log SO3Quat_product SO3Quat_inverse SO3.model].
  rewrite product_inverse_product, log_yaw by done.
  unfold vmul, kp_rollpitch; cbn [el0 el1 el2]. apply vec3_eq; ring.
Qed.

Lemma attitude_control_yaw_error_witness :
  attitude_control (L := SO3.model) (vertcat4 1 0 0 0)
    (SO3.product (vertcat4 1 0 0 0)
       (vertcat4 (cos (PI / 2)) 0 0 (sin (PI / 2))))
  = vertcat 0 0 (kp_yaw * PI).
Proof.
  pose proof PI_RGT_0 as Hpi.
  apply (attitude_control_yaw_error (vertcat4 1 0 0 0) PI).
  - unfold unit_quat; simpl. lra.
  - lra.
  - rewrite sin_PI2, Rabs_R1. lra.
Defined.

(** ** The conversions over the model of the rotation library *)

(** X16.  [eulerB321_to_quat] returns a unit quaternion for every
    triple of angles. *)
Theorem eulerB321_to_quat_unit (yaw pitch roll : R) :
  unit_quat (eulerB321_to_quat (L := SO3.model) yaw pitch roll).
Proof.
  rewrite eulerB321_to_quat_model.
  unfold unit_quat, SO3.from_Euler; cbn [q0 q1 q2 q3 el0 el1 el2].
  pose proof (sin2_cos2 (yaw / 2)) as Hy.
  pose proof (sin2_cos2 (pitch / 2)) as Hp.
  pose proof (sin2_cos2 (roll / 2)) as Hr.
  unfold Rsqr in Hy, Hp, Hr.
  set (cy := cos (yaw / 2)) in *. set (sy := sin (yaw / 2)) in *.
  set (cp := cos (pitch / 2)) in *. set (sp := sin (pitch / 2)) in *.
  set (cr := cos (roll / 2)) in *. set (sr := sin (roll / 2)) in *.
  nsatz.
Qed.

(** The quantity whose arcsine is the pitch is a sine for a unit
    quaternion. *)
Lemma pitch_sine_bound (q : Quat) :
  unit_quat q -> -1 <= 2 * (q0 q * q2 q - q1 q * q3 q) <= 1.
Proof.
  destruct q as [a b c d]. unfold unit_quat; cbn [q0 q1 q2 q3]. intros H.
  pose proof (Rle_0_sqr (a - c)) as H1. pose proof (Rle_0_sqr (b + d)) as H2.
  pose proof (Rle_0_sqr (a + c)) as H3. pose proof (Rle_0_sqr (b - d)) as H4.
  unfold Rsqr in *. split; lra.
Qed.

(** X17.  For every unit quaternion at which the library does not take
    its fallback for the singularity, [quat_to_eulerB321] returns
    principal values: yaw and roll in (-PI, PI], pitch in
    [-PI/2, PI/2], the pitch being the angle of that range whose sine
    is [2 (q0 q2 - q1 q3)]. *)
Theorem quat_to_eulerB321_range (locked : Quat -> bool) (lock : Quat -> Vec3)
  (q : Quat) :
  unit_quat q -> locked q = false ->
  let '(yaw, pitch, roll) :=
    quat_to_eulerB321 (L := SO3.model_gated locked lock) q in
  - PI < yaw <= PI /\ - (PI / 2) <= pitch <= PI / 2 /\ - PI < roll <= PI /\
  sin pitch = 2 * (q0 q * q2 q - q1 q * q3 q).
Proof.
  intros Hq Hfree. unfold quat_to_eulerB321.
  cbn [SO3EulerB321_from_Quat SO3.model_gated].
  rewrite from_Quat_gated_regular by done.
  unfold SO3.from_Quat; cbn [el0 el1 el2].
  split; [apply atan2_range|]. split; [apply asin_bound|].
  split; [apply atan2_range|].
  apply sin_asin, pitch_sine_bound, Hq.
Qed.

Lemma quat_to_eulerB321_range_witness :
  let '(yaw, pitch, roll) :=
    quat_to_eulerB321
      (L := SO3.model_gated (SO3.band_gate 1e-3) (fun _ => vertcat 0 0 0))
      (vertcat4 (1 / 2) (1 / 2) (1 / 2) (1 / 2)) in
  - PI < yaw <= PI /\ - (PI / 2) <= pitch <= PI / 2 /\ - PI < roll <= PI /\
  sin pitch = 2 * (1 / 2 * (1 / 2) - 1 / 2 * (1 / 2)).
Proof.
  apply (quat_to_eulerB321_range (SO3.band_gate 1e-3)
           (fun _ => vertcat 0 0 0) (vertcat4 (1 / 2) (1 / 2) (1 / 2) (1 / 2))).
  - unfold unit_quat; simpl. lra.
  - unfold SO3.band_gate; cbn [q0 q1 q2 q3].
    replace (2 * (1 / 2 * (1 / 2) - 1 / 2 * (1 / 2))) with 0 by lra.
    rewrite asin_0, Rabs_R0. pose proof PI2_1 as Hpi.
    apply sx_lt_false. rewrite Rabs_left1 by lra. lra.
Defined.

(** ** The code-generation driver *)

(** Overriding a known option keeps the set of known options. *)
Lemma insert_known_is_Some (p : gmap string bool) (k k' : string) (v : bool) :
  is_Some (p !! k) -> (<[k := v]> p !! k' = None <-> p !! k' = None).
Proof.
  intros [b Hb]. destruct (decide (k = k')) as [<-|Hne].
  - rewrite lookup_insert_eq, Hb. split; intros [=].
  - by rewrite lookup_insert_ne.
Qed.

Lemma apply_kwargs_None (kwargs : list (string * bool)) :
  forall p : gmap string bool,
    apply_kwargs p kwargs = None <->
    exists k v, (k, v) ∈ kwargs /\ p !! k = None.
Proof.
  induction kwargs as [|[k v] rest IH]; intros p; cbn [apply_kwargs].
  - split; [done|]. intros (k & v & Hin & _). by apply elem_of_nil in Hin.
  - destruct (decide (is_Some (p !! k))) as [Hk|Hk].
    + rewrite IH. split.
      * intros (k' & v' & Hin & Hnone). exists k', v'.
        split; [by apply elem_of_cons; right|].
        by apply (insert_known_is_Some p k k' v Hk).
      * intros (k' & v' & Hin & Hnone).
        apply elem_of_cons in Hin as [[= -> ->]|Hin].
        -- rewrite Hnone in Hk. by destruct Hk.
        -- exists k', v'. split; [done|].
           by apply (insert_known_is_Some p k k' v Hk).
    + split; [|done]. intros _. exists k, v.
      split; [by apply elem_of_cons; left|].
      by apply eq_None_not_Some.
Qed.

(** X18.  The loop over the keyword arguments (lines 438-440) raises
    exactly when some argument is not one of the ten known options, and
    then [generate_code] fails, whatever the registry and the file
    name: nothing is handed to a generator. *)
Theorem generate_code_unknown_option (eqs : gmap string NamedFunction)
  (filename : string) (kwargs : list (string * bool)) :
  (apply_kwargs default_options kwargs = None <->
   exists k v, (k, v) ∈ kwargs /\ default_options !! k = None) /\
  ((exists k v, (k, v) ∈ kwargs /\ default_options !! k = None) ->
   generate_code eqs filename kwargs = None).
Proof.
  split; [apply apply_kwargs_None|].
  intros H. apply apply_kwargs_None in H.
  unfold generate_code. by rewrite H.
Qed.

(** What the [gen.add] loop leaves in the generator. *)
Lemma gen_add_loop (l : list (string * NamedFunction)) :
  forall gen : CodeGenerator,
    gen_added (foldl (fun gen '(name, eq) => gen_add gen eq) gen l)
    = gen_added gen ++ l.*2.
Proof.
  induction l as [|[name eq] l IH]; intros gen; cbn [foldl fmap list_fmap].
  - by rewrite app_nil_r.
  - rewrite IH. unfold gen_add; cbn [gen_added snd].
    by rewrite <- app_assoc.
Qed.

(** X19.  When [generate_code] succeeds, the generator has received
    exactly the functions bound in the registry, one [gen.add] per
    name. *)
Theorem generate_code_adds_registry (eqs : gmap string NamedFunction)
  (filename : string) (kwargs : list (string * bool)) (gen : CodeGenerator) :
  generate_code eqs filename kwargs = Some gen ->
  gen_filename gen = filename /\
  length (gen_added gen) = size eqs /\
  forall f : NamedFunction,
    f ∈ gen_added gen <-> exists name : string, eqs !! name = Some f.
Proof.
  unfold generate_code. intros H.
  destruct (apply_kwargs default_options kwargs) as [p|]; [|done].
  cbn in H. injection H as <-.
  assert (Hfn : forall (l : list (string * NamedFunction)) g,
    gen_filename (foldl (fun gen '(name, eq) => gen_add gen eq) g l)
    = gen_filename g).
  { induction l as [|[n e] l IH]; intros g; cbn [foldl]; [done|].
    by rewrite IH. }
  split; [by rewrite Hfn|].
  rewrite gen_add_loop. cbn [gen_added app]. split.
  - by rewrite length_fmap, length_map_to_list.
  - intros f. rewrite list_elem_of_fmap. split.
    + intros ([name f'] & -> & Hin). exists name.
      by apply elem_of_map_to_list in Hin.
    + intros [name Hname]. exists (name, f). split; [done|].
      by apply elem_of_map_to_list.
Qed.

Lemma generate_code_adds_registry_witness :
  exists gen : CodeGenerator,
    generate_code derive_joy_acro "out.c" [("mex", true)] = Some gen /\
    gen_filename gen = "out.c" /\
    length (gen_added gen) = size derive_joy_acro /\
    forall f : NamedFunction,
      f ∈ gen_added gen <->
      exists name : string, derive_joy_acro !! name = Some f.
Proof.
  eexists. split; [reflexivity|].
  apply (generate_code_adds_registry derive_joy_acro "out.c" [("mex", true)]).
  reflexivity.
Defined.

(** The options after the loop over the keyword arguments. *)
Lemma apply_kwargs_Some (kwargs : list (string * bool)) :
  forall p p' : gmap string bool,
    NoDup kwargs.*1 ->
    apply_kwargs p kwargs = Some p' ->
    forall k : string,
      p' !! k = match list_to_map (M := gmap string bool) kwargs !! k with
                | Some v => Some v
                | None => p !! k
                end.
Proof.
  induction kwargs as [|[k v] rest IH]; intros p p' Hnd H k'.
  - cbn in H. injection H as <-. by rewrite list_to_map_nil, lookup_empty.
  - cbn [apply_kwargs] in H. cbn [fmap list_fmap fst] in Hnd.
    apply NoDup_cons in Hnd as [Hnotin Hnd].
    destruct (decide (is_Some (p !! k))) as [Hk|Hk]; [|done].
    rewrite (IH _ _ Hnd H k'). rewrite list_to_map_cons.
    destruct (decide (k = k')) as [<-|Hne].
    + rewrite lookup_insert_eq.
      rewrite (not_elem_of_list_to_map_1 _ k Hnotin).
      by rewrite lookup_insert_eq.
    + by rewrite !lookup_insert_ne by done.
Qed.

(** X20.  When [generate_code] succeeds on keyword arguments (distinct
    names, as Python passes them), every option named by an argument
    has the argument's value and every other option keeps its
    default. *)
Theorem generate_code_options (eqs : gmap string NamedFunction)
  (filename : string) (kwargs : list (string * bool)) (gen : CodeGenerator) :
  NoDup kwargs.*1 ->
  generate_code eqs filename kwargs = Some gen ->
  (forall k v, (k, v) ∈ kwargs -> gen_options gen !! k = Some v) /\
  (forall k, k ∉ kwargs.*1 -> gen_options gen !! k = default_options !! k).
Proof.
  intros Hnd H. unfold generate_code in H.
  destruct (apply_kwargs default_options kwargs) as [p|] eqn:Hp; [|done].
  cbn in H. injection H as <-.
  assert (Hopt : forall (l : list (string * NamedFunction)) g,
    gen_options (foldl (fun gen '(name, eq) => gen_add gen eq) g l)
    = gen_options g).
  { induction l as [|[n e] l IH]; intros g; cbn [foldl]; [done|].
    by rewrite IH. }
  rewrite Hopt. cbn [gen_options].
  pose proof (apply_kwargs_Some kwargs _ _ Hnd Hp) as Hlk.
  split.
  - intros k v Hin. rewrite Hlk.
    by rewrite (elem_of_list_to_map_1 kwargs k v Hnd Hin).
  - intros k Hk. rewrite Hlk.
    by rewrite (not_elem_of_list_to_map_1 kwargs k Hk).
Qed.

Lemma generate_code_options_witness :
  exists gen : CodeGenerator,
    generate_code derive_joy_acro "out.c" [("mex", true)] = Some gen /\
    (forall k v, (k, v) ∈ [("mex", true)] -> gen_options gen !! k = Some v) /\
    (forall k, k ∉ [("mex", true)].*1 ->
       gen_options gen !! k = default_options !! k).
Proof.
  eexists. split; [reflexivity|].
  apply (generate_code_options derive_joy_acro "out.c" [("mex", true)]).
  - cbn. apply NoDup_singleton.
  - reflexivity.
Defined.

(** X21.  Registering two dictionaries that share no name gives the
    same registry in either order, whatever was registered before. *)
Theorem dict_update_commutes (eqs d1 d2 : gmap string NamedFunction) :
  d1 ##ₘ d2 ->
  (eqs1 ← dict_update eqs d1; dict_update eqs1 d2)
  = (eqs2 ← dict_update eqs d2; dict_update eqs2 d1).
Proof.
  intros Hdisj. unfold dict_update; cbn. f_equal.
  rewrite !(assoc_L (∪)). f_equal. symmetry. by apply map_union_comm.
Qed.

Lemma dict_update_commutes_witness :
  (eqs1 ← dict_update ∅ derive_joy_acro; dict_update eqs1 derive_joy_position)
  = (eqs2 ← dict_update ∅ derive_joy_position; dict_update eqs2 derive_joy_acro).
Proof.
  apply (dict_update_commutes ∅ derive_joy_acro derive_joy_position).
  apply map_disjoint_singleton_l_2. by apply lookup_singleton_ne.
Defined.
